(** * The mock relay of agent-test-kit (src/relay.cjs)

    A shallow embedding of the relay engine created by [createMockRelay]:
    the filter predicate, the replaceable key, the event store, the
    message handler and the test-harness surface, followed by the
    properties of the specification that concern them.

    Conventions of the embedding.
    - JavaScript numbers that the relay reads ([kind], [created_at],
      [since], [until], [limit]) are integers, modelled in [Z].
    - A property that may be [undefined] is an [option]; the fields [id],
      [pubkey] and [kind] of an event are optional because the message
      handler receives events straight from the wire and tests them.
    - A JavaScript [Map] is an association list in insertion order.
    - Strings are Rocq strings; a filter key such as ["#p"] is two
      characters long (ASCII keys). *)

From Stdlib Require Import ZArith List String Ascii Bool Lia.
From Stdlib Require Import DecimalString DecimalPos DecimalZ Permutation Sorted.
Import ListNotations.
Open Scope string_scope.
Open Scope Z_scope.

(** ** JavaScript values *)

Module Js.

(** Equality [===] on values that are a string or [undefined]. *)
Definition eqb_opt (a b : option string) : bool :=
  match a, b with
  | Some x, Some y => String.eqb x y
  | None, None => true
  | _, _ => false
  end.

(** Truthiness of a number: every integer but 0. *)
Definition truthy (n : Z) : bool := negb (n =? 0).

(** Truthiness of a value that is a string or [undefined]. *)
Definition truthy_str (s : option string) : bool :=
  match s with
  | Some x => negb (String.eqb x "")
  | None => false
  end.

(** An integer inside a template literal. *)
Definition show (n : Z) : string := NilZero.string_of_int (Z.to_int n).

(** A string or [undefined] inside a template literal. *)
Definition interp (s : option string) : string :=
  match s with
  | Some x => x
  | None => "undefined"
  end.

(** [arr.includes(x)] for an array of strings. *)
Definition includes (arr : list string) (x : option string) : bool :=
  existsb (fun y => eqb_opt (Some y) x) arr.

(** [arr.includes(n)] for an array of numbers; [n] may be [undefined]. *)
Definition includes_num (arr : list Z) (n : option Z) : bool :=
  match n with
  | Some k => existsb (Z.eqb k) arr
  | None => false
  end.

End Js.

(** ** Data model *)

(** A Nostr event as the relay reads it. *)
Record Event := mkEvent {
  id : option string;
  pubkey : option string;
  kind : option Z;
  created_at : Z;
  tags : list (list string);
  content : string;
  sig : string
}.

(** A filter.  [tagEntries] are the remaining own properties of the filter
    object in insertion order, such as ["#p"]; the named properties never
    start with ['#'], so the loop over [Object.entries] skips them. *)
Record Filter := mkFilter {
  ids : option (list string);
  authors : option (list string);
  kinds : option (list Z);
  since : option Z;
  until : option Z;
  limit : option Z;
  tagEntries : list (string * list string)
}.

(** The filter [{}]. *)
Definition emptyFilter : Filter :=
  mkFilter None None None None None None [].

(** ** matchesFilter, matchesFilters *)

(** [key.startsWith('#') && key.length === 2] *)
Definition isTagKey (key : string) : bool :=
  String.prefix "#" key && (Nat.eqb (String.length key) 2).

(** The body of the loop over the entries of the filter, for one entry. *)
Definition tagEntryOk (event : Event) (entry : string * list string) : bool :=
  let (key, values) := entry in
  if isTagKey key then
    let tagName := String.substring 1 1 key in
    let eventTagValues :=
      map (fun t => nth_error t 1)
          (filter (fun t => Js.eqb_opt (nth_error t 0) (Some tagName))
                  (tags event)) in
    existsb (fun v => existsb (fun w => Js.eqb_opt w (Some v)) eventTagValues)
            values
  else true.

Definition matchesFilter (event : Event) (filter : Filter) : bool :=
  if match ids filter with
     | Some l => negb (Js.includes l (id event))
     | None => false
     end then false
  else if match authors filter with
          | Some l => negb (Js.includes l (pubkey event))
          | None => false
          end then false
  else if match kinds filter with
          | Some l => negb (Js.includes_num l (kind event))
          | None => false
          end then false
  else if match since filter with
          | Some s => Js.truthy s && (created_at event <? s)
          | None => false
          end then false
  else if match until filter with
          | Some u => Js.truthy u && (created_at event >? u)
          | None => false
          end then false
  else forallb (tagEntryOk event) (tagEntries filter).

Definition matchesFilters (event : Event) (filters : list Filter) : bool :=
  existsb (matchesFilter event) filters.

(** ** replaceableKey *)

Definition replaceableKey (event : Event) : option string :=
  match kind event with
  | Some k =>
      if (k >=? 30000) && (k <? 40000) then
        let dTag :=
          find (fun t => Js.eqb_opt (nth_error t 0) (Some "d")) (tags event) in
        Some (Js.show k ++ ":" ++ Js.interp (pubkey event) ++ ":" ++
              match dTag with
              | Some t => Js.interp (nth_error t 1)
              | None => ""
              end)
      else if (k =? 0) || (k =? 3) || ((k >=? 10000) && (k <? 20000)) then
        Some (Js.show k ++ ":" ++ Js.interp (pubkey event))
      else None
  | None => None
  end.

(** ** JavaScript Maps

    A [Map] iterates in insertion order; [set] on a key that is present
    keeps its position, [delete] removes the entry. *)

Module JsMap.
Section Ops.
Context {K V : Type} (eqb : K -> K -> bool).

Definition has (k : K) (m : list (K * V)) : bool :=
  existsb (fun p => eqb (fst p) k) m.

Definition get (k : K) (m : list (K * V)) : option V :=
  option_map snd (find (fun p => eqb (fst p) k) m).

Definition delete (k : K) (m : list (K * V)) : list (K * V) :=
  filter (fun p => negb (eqb (fst p) k)) m.

Definition set (k : K) (v : V) (m : list (K * V)) : list (K * V) :=
  if has k m
  then map (fun p => if eqb (fst p) k then (k, v) else p) m
  else (m ++ [(k, v)])%list.
End Ops.
End JsMap.

(** The event table [events]: a Map from id to event. *)
Module EvMap.

Definition t := list (option string * Event).

Definition has : option string -> t -> bool := JsMap.has Js.eqb_opt.
Definition delete : option string -> t -> t := JsMap.delete Js.eqb_opt.
Definition set : option string -> Event -> t -> t := JsMap.set Js.eqb_opt.

Definition values (m : t) : list Event := map snd m.

Definition keys (m : t) : list (option string) := map fst m.

(** The table of a running relay: keys are distinct and every event is
    filed under its own id. *)
Definition wf (m : t) : Prop :=
  NoDup (keys m) /\ Forall (fun p => fst p = id (snd p)) m.

End EvMap.

(** ** storeEvent *)

(** [replaceableKey(existing) === rKey &&
     existing.created_at <= event.created_at] *)
Definition superseded (rKey : string) (event existing : Event) : bool :=
  Js.eqb_opt (replaceableKey existing) (Some rKey)
  && (created_at existing <=? created_at event).

(** The loop that removes the older versions: one step per entry of the
    table, deleting the entry under its key when it shares the replaceable
    key and is not newer than the incoming event. *)
Definition removeOlder (rKey : string) (event : Event) (events : EvMap.t)
  : EvMap.t :=
  fold_left
    (fun m p =>
       let '(k, existing) := p in
       if superseded rKey event existing then EvMap.delete k m else m)
    events events.

Definition storeEvent (event : Event) (events : EvMap.t) : EvMap.t * bool :=
  let rKey := replaceableKey event in
  let events1 :=
    match rKey with
    | Some r => if Js.truthy_str rKey then removeOlder r event events
                else events
    | None => events
    end in
  if EvMap.has (id event) events1 then (events1, false)
  else (EvMap.set (id event) event events1, true).

(** ** The relay instance and its sockets *)

(** A connection [ws]. *)
Definition Conn := nat.

(** The subscription table [subscriptions]: ws -> (subId -> filters). *)
Definition SubMap := list (Conn * list (string * list Filter)).

Record Relay := mkRelay {
  events : EvMap.t;
  subscriptions : SubMap
}.

(** A freshly created relay. *)
Definition createMockRelay : Relay := mkRelay [] [].

(** Messages the relay sends. *)
Inductive RelayMsg :=
| NOTICE (text : string)
| OK (eventId : string) (accepted : bool) (message : string)
| EVENT (subId : string) (event : Event)
| EOSE (subId : string).

(** What [handleMessage] finds in [data]. *)
Inductive ClientMsg :=
| InvalidJson                           (* JSON.parse throws *)
| InvalidFormat                         (* not an array, or shorter than 2 *)
| ClientEVENT (event : option Event)    (* ['EVENT', event]; None: falsy *)
| ClientREQ (subId : string) (filters : list Filter)
| ClientCLOSE (subId : string)
| ClientOther (type : string).

(** *** Sending

    [ws.send] either hands the message to the socket or throws.  A
    computation yields the messages handed over so far and how it ended. *)

Inductive Outcome (A : Type) :=
| Returned (a : A)
| Thrown.
Arguments Returned {A} a.
Arguments Thrown {A}.

Definition Wire := list (Conn * RelayMsg).

Definition Eff (A : Type) : Type := Wire * Outcome A.

Definition ret {A} (a : A) : Eff A := ([], Returned a).

Definition bind {A B} (x : Eff A) (f : A -> Eff B) : Eff B :=
  match x with
  | (w, Returned a) => let (w', o) := f a in ((w ++ w')%list, o)
  | (w, Thrown) => (w, Thrown)
  end.

Notation "x <- c ;; k" := (bind c (fun x => k))
  (at level 61, c at next level, right associativity).
Notation "c ;; k" := (bind c (fun _ => k))
  (at level 61, right associativity).

(** [try { c } catch (e) { }] *)
Definition tryCatch (c : Eff unit) : Eff unit := (fst c, Returned tt).

(** [for (const x of xs) body(x)] *)
Fixpoint forEach {A} (xs : list A) (body : A -> Eff unit) : Eff unit :=
  match xs with
  | [] => ret tt
  | x :: rest => body x ;; forEach rest body
  end.

Section Sockets.

(** The sockets on which [send] throws. *)
Variable throws : Conn -> bool.

Definition send (ws : Conn) (m : RelayMsg) : Eff unit :=
  if throws ws then ([], Thrown) else ([(ws, m)], Returned tt).

(** The broadcast of [handleMessage]. *)
Definition broadcast (event : Event) (subs : SubMap) : Eff unit :=
  forEach subs (fun '(subWs, table) =>
    forEach table (fun '(subId, filters) =>
      if matchesFilters event filters
      then send subWs (EVENT subId event)
      else ret tt)).

(** The broadcast of [inject], each send in a [try]. *)
Definition broadcastGuarded (event : Event) (subs : SubMap) : Eff unit :=
  forEach subs (fun '(subWs, table) =>
    forEach table (fun '(subId, filters) =>
      if matchesFilters event filters
      then tryCatch (send subWs (EVENT subId event))
      else ret tt)).

End Sockets.

(** ** Numbers that may be [Infinity] *)

Inductive Num :=
| Fin (n : Z)
| Infinity.

Module Num.

(** [Math.max(a, b)] *)
Definition max (a b : Num) : Num :=
  match a, b with
  | Fin x, Fin y => Fin (Z.max x y)
  | _, _ => Infinity
  end.

(** [x || Infinity] for a number [x] that may be [undefined]. *)
Definition orInfinity (x : option Z) : Num :=
  match x with
  | Some n => if Js.truthy n then Fin n else Infinity
  | None => Infinity
  end.

(** [limit !== Infinity && count >= limit] *)
Definition reached (limit : Num) (count : Z) : bool :=
  match limit with
  | Fin n => count >=? n
  | Infinity => false
  end.

End Num.

(** ** Sorting newest first

    [Array.prototype.sort] is stable; the comparator is
    [(a, b) => b.created_at - a.created_at].  [sortNewestFirst] is the
    stable insertion sort for that comparator. *)

Definition compareNewestFirst (a b : Event) : Z := created_at b - created_at a.

Fixpoint insertNewestFirst (a : Event) (l : list Event) : list Event :=
  match l with
  | [] => [a]
  | b :: rest =>
      if compareNewestFirst a b <=? 0 then a :: b :: rest
      else b :: insertNewestFirst a rest
  end.

Definition sortNewestFirst (l : list Event) : list Event :=
  fold_right insertNewestFirst [] l.

(** ** handleMessage *)

(** [!b === undefined], as the condition on [event.kind] parses: a boolean
    compared with [undefined]. *)
Definition boolIsUndefined (b : bool) : bool := false.

(** Truthiness of [event.kind]. *)
Definition truthyKind (k : option Z) : bool :=
  match k with
  | Some n => Js.truthy n
  | None => false
  end.

(** [!event || !event.id || !event.pubkey || !event.kind === undefined] *)
Definition invalidEvent (event : option Event) : bool :=
  match event with
  | None => true
  | Some e =>
      negb (Js.truthy_str (id e))
      || negb (Js.truthy_str (pubkey e))
      || boolIsUndefined (negb (truthyKind (kind e)))
  end.

(** [event?.id || ''] *)
Definition idOrEmpty (event : option Event) : string :=
  match event with
  | Some e => if Js.truthy_str (id e) then Js.interp (id e) else ""
  | None => ""
  end.

(** [filters.reduce((max, f) => Math.max(max, f.limit || Infinity), 0)] *)
Definition replayLimit (filters : list Filter) : Num :=
  fold_left (fun max f => Num.max max (Num.orInfinity (limit f)))
            filters (Fin 0).

Section Handlers.

Variable throws : Conn -> bool.

(** The loop of REQ over the sorted events, with its [break]. *)
Fixpoint replay (ws : Conn) (subId : string) (filters : list Filter)
         (limit : Num) (sorted : list Event) (count : Z) : Eff unit :=
  match sorted with
  | [] => ret tt
  | event :: rest =>
      if matchesFilters event filters then
        send throws ws (EVENT subId event) ;;
        let count' := count + 1 in
        if Num.reached limit count' then ret tt
        else replay ws subId filters limit rest count'
      else replay ws subId filters limit rest count
  end.

(** [handleMessage(ws, data)]: the relay after the call, and what was
    sent.  Every branch updates the tables before its first [send]. *)
Definition handleMessage (r : Relay) (ws : Conn) (data : ClientMsg)
  : Relay * Eff unit :=
  match data with
  | InvalidJson => (r, send throws ws (NOTICE "Invalid JSON"))
  | InvalidFormat => (r, send throws ws (NOTICE "Invalid message format"))
  | ClientEVENT event =>
      match event with
      | Some e =>
          if invalidEvent event then
            (r, send throws ws (OK (idOrEmpty event) false "Invalid event"))
          else
            let (events', isNew) := storeEvent e (events r) in
            (mkRelay events' (subscriptions r),
             send throws ws (OK (Js.interp (id e)) true "") ;;
             if isNew then broadcast throws e (subscriptions r)
             else ret tt)
      | None =>
          (r, send throws ws (OK (idOrEmpty event) false "Invalid event"))
      end
  | ClientREQ subId filters =>
      let subs1 :=
        if JsMap.has Nat.eqb ws (subscriptions r) then subscriptions r
        else JsMap.set Nat.eqb ws [] (subscriptions r) in
      let table :=
        match JsMap.get Nat.eqb ws subs1 with
        | Some t => t
        | None => []
        end in
      let subs2 :=
        JsMap.set Nat.eqb ws (JsMap.set String.eqb subId filters table)
                  subs1 in
      let limit := replayLimit filters in
      let sorted := sortNewestFirst (EvMap.values (events r)) in
      (mkRelay (events r) subs2,
       replay ws subId filters limit sorted 0 ;;
       send throws ws (EOSE subId))
  | ClientCLOSE subId =>
      let subs' :=
        match JsMap.get Nat.eqb ws (subscriptions r) with
        | Some t =>
            JsMap.set Nat.eqb ws (JsMap.delete String.eqb subId t)
                      (subscriptions r)
        | None => subscriptions r
        end in
      (mkRelay (events r) subs', ret tt)
  | ClientOther type =>
      (r, send throws ws (NOTICE ("Unknown message type: " ++ type)))
  end.

(** The ['close'] handler of a connection. *)
Definition connectionClosed (r : Relay) (ws : Conn) : Relay :=
  mkRelay (events r) (JsMap.delete Nat.eqb ws (subscriptions r)).

(** ** The test-harness surface *)

Definition inject (r : Relay) (event : Event) : Relay * Eff bool :=
  let (events', isNew) := storeEvent event (events r) in
  (mkRelay events' (subscriptions r),
   (if isNew then broadcastGuarded throws event (subscriptions r)
    else ret tt) ;;
   ret isNew).

End Handlers.

Definition getEvents (r : Relay) (filter : option Filter) : list Event :=
  let all := EvMap.values (events r) in
  match filter with
  | None => all
  | Some f => List.filter (fun e => matchesFilter e f) all
  end.

Definition clear (r : Relay) : Relay := mkRelay [] (subscriptions r).

(** The counts reported by [status()]. *)
Definition statusEvents (r : Relay) : nat := List.length (events r).

Definition statusSubscriptions (r : Relay) : nat :=
  fold_left (fun sum m => (sum + List.length (snd m))%nat) (subscriptions r) 0%nat.

(** ** Vocabulary of the properties *)

(** The filter with its tag entries replaced. *)
Definition withTagEntries (f : Filter) (entries : list (string * list string))
  : Filter :=
  mkFilter (ids f) (authors f) (kinds f) (since f) (until f) (limit f) entries.

(** The filter with its time bounds replaced. *)
Definition withBounds (f : Filter) (s u : option Z) : Filter :=
  mkFilter (ids f) (authors f) (kinds f) s u (limit f) (tagEntries f).

(** The key of the tag constraint on the one-character name [c]. *)
Definition tagKey (c : ascii) : string := String "#" (String c EmptyString).

(** The event carries a tag [[name, v, ...]] with [v] among [values]. *)
Definition hasTagIn (event : Event) (name : string) (values : list string)
  : Prop :=
  exists t v,
    In t (tags event) /\ nth_error t 0 = Some name /\
    nth_error t 1 = Some v /\ In v values.

(** A time bound that is present and not 0 holds of the timestamp. *)
Definition sinceHolds (event : Event) (f : Filter) : Prop :=
  forall s, since f = Some s -> s <> 0 -> s <= created_at event.

Definition untilHolds (event : Event) (f : Filter) : Prop :=
  forall u, until f = Some u -> u <> 0 -> created_at event <= u.

(** The two checks on the timestamp, as the code evaluates them. *)
Definition sinceOk (event : Event) (f : Filter) : bool :=
  match since f with
  | Some s => negb (Js.truthy s && (created_at event <? s))
  | None => true
  end.

Definition untilOk (event : Event) (f : Filter) : bool :=
  match until f with
  | Some u => negb (Js.truthy u && (created_at event >? u))
  | None => true
  end.

(** A filter that holds tag entries only. *)
Definition tagFilter (entries : list (string * list string)) : Filter :=
  withTagEntries emptyFilter entries.

(** The time bounds as the specification words them: every bound that is
    present is inclusive. *)
Definition boundsAsSpecified (event : Event) (f : Filter) : Prop :=
  matchesFilter event f = true ->
  (forall s, since f = Some s -> s <= created_at event) /\
  (forall u, until f = Some u -> created_at event <= u).

(** A note of kind 1 by the author ["alice"]. *)
Definition note (i : string) (t : Z) (tg : list (list string)) : Event :=
  mkEvent (Some i) (Some "alice") (Some 1) t tg "" "".

(** Two versions of one parameterized-replaceable event, as in the test
    suite: same kind, author and ['d'] tag, created at 1000 and 2000. *)
Definition taskOpen : Event :=
  mkEvent (Some "id-open") (Some "alice") (Some 30950) 1000
          [["d"; "task-1"]; ["status"; "open"]] "" "".

Definition taskClaimed : Event :=
  mkEvent (Some "id-claimed") (Some "alice") (Some 30950) 2000
          [["d"; "task-1"]; ["status"; "claimed"]] "" "".

(** The query restricted to the replaceable key of the two. *)
Definition taskFilter : Filter :=
  mkFilter None (Some ["alice"]) (Some [30950]) None None None
           [("#d", ["task-1"])].

(** No socket throws. *)
Definition allOpen : Conn -> bool := fun _ => false.

(** [inject] for its effect on the relay only. *)
Definition injected (r : Relay) (event : Event) : Relay :=
  fst (inject allOpen r event).

(** The longest prefix whose elements satisfy [g]. *)
Fixpoint takeWhile {A} (g : A -> bool) (l : list A) : list A :=
  match l with
  | [] => []
  | x :: rest => if g x then x :: takeWhile g rest else []
  end.

(** The deliveries a fan-out of [event] attempts, in order: one per
    subscription whose filters match, connection by connection. *)
Definition deliveries (event : Event) (subs : SubMap) : Wire :=
  flat_map (fun '(subWs, table) =>
    flat_map (fun '(subId, filters) =>
      if matchesFilters event filters
      then [(subWs, EVENT subId event)]
      else []) table) subs.

(** The message goes to a socket that does not throw. *)
Definition reaches (throws : Conn -> bool) (m : Conn * RelayMsg) : bool :=
  negb (throws (fst m)).

(** The acknowledgments on the wire: receiver and [accepted] flag. *)
Definition acksOf (w : Wire) : list (Conn * bool) :=
  flat_map (fun m => match snd m with
                     | OK _ accepted _ => [(fst m, accepted)]
                     | _ => []
                     end) w.

(** The acknowledgment as the specification words it: [accepted] tells
    whether the id was absent from the store. *)
Definition ackAsSpecified (throws : Conn -> bool) (r : Relay) (ws : Conn)
           (event : Event) : Prop :=
  acksOf (fst (snd (handleMessage throws r ws (ClientEVENT (Some event))))) =
  [(ws, negb (EvMap.has (id event) (events r)))].

(** Two connections that each opened one subscription matching
    everything; afterwards [send] throws on the first. *)
Definition twoSubscribers : Relay :=
  let r1 := fst (handleMessage allOpen createMockRelay 1%nat
                               (ClientREQ "s1" [emptyFilter])) in
  fst (handleMessage allOpen r1 2%nat (ClientREQ "s2" [emptyFilter])).

Definition firstThrows : Conn -> bool := fun ws => Nat.eqb ws 1.

(** An event that lacks [kind]. *)
Definition kindless : Event :=
  mkEvent (Some "a") (Some "alice") None 1000 [] "hello" "".

(** [a] is at least as new as [b]. *)
Definition newerOrSame (a b : Event) : Prop := created_at b <= created_at a.

(** The stored events a filter list matches, newest first. *)
Definition backlog (r : Relay) (filters : list Filter) : list Event :=
  filter (fun e => matchesFilters e filters)
         (sortNewestFirst (EvMap.values (events r))).

(** The first [limit] elements, all of them when the limit is [Infinity]. *)
Definition capTo {A} (limit : Num) (l : list A) : list A :=
  match limit with
  | Fin n => firstn (Z.to_nat n) l
  | Infinity => l
  end.

(** The cap as the specification words it: the largest limit declared
    across the filters, an absent limit meaning unbounded. *)
Definition declaredLimit (filters : list Filter) : Num :=
  fold_right Num.max (Fin 0)
    (map (fun f => match limit f with
                   | Some n => Fin n
                   | None => Infinity
                   end) filters).

(** The replay as the specification words it. *)
Definition replayAsSpecified (r : Relay) (ws : Conn) (subId : string)
           (filters : list Filter) : Wire :=
  (map (fun e => (ws, EVENT subId e))
       (capTo (declaredLimit filters) (backlog r filters))
   ++ [(ws, EOSE subId)])%list.

(** The limit of a filter is absent or 0. *)
Definition limitAbsentOrZero (f : Filter) : bool :=
  match limit f with
  | Some n => n =? 0
  | None => true
  end.

(** The cap with a limit of 0 read as absent: unbounded as soon as one
    filter has no limit, else the largest limit. *)
Definition largestLimit (filters : list Filter) : Num :=
  if existsb limitAbsentOrZero filters then Infinity
  else Fin (fold_right Z.max 0
              (map (fun f => match limit f with
                             | Some n => n
                             | None => 0
                             end) filters)).

(** No filter declares a negative limit. *)
Definition limitsNonNegative (filters : list Filter) : Prop :=
  Forall (fun f => forall n, limit f = Some n -> 0 <= n) filters.

(** A store of three notes, created at 5, 7 and 5. *)
Definition threeNotes : Relay :=
  injected (injected (injected createMockRelay (note "a" 5 []))
                     (note "b" 7 []))
           (note "c" 5 []).

(** The filter [{limit: n}]. *)
Definition limitFilter (n : Z) : Filter :=
  mkFilter None None None None None (Some n) [].

(** ** Vocabulary of the further properties *)

(** The subscription table of a running relay: connections are distinct
    and so are the subscription ids of each connection. *)
Definition wfSubs (subs : SubMap) : Prop :=
  NoDup (map fst subs) /\ Forall (fun p => NoDup (map fst (snd p))) subs.

Definition wfRelay (r : Relay) : Prop :=
  EvMap.wf (events r) /\ wfSubs (subscriptions r).

(** One call into the relay: a message on a socket, a direct injection,
    a reset of the store, or the close of a connection. *)
Inductive Call :=
| CallMessage (ws : Conn) (data : ClientMsg)
| CallInject (event : Event)
| CallClear
| CallClosed (ws : Conn).

Definition call (throws : Conn -> bool) (r : Relay) (c : Call) : Relay :=
  match c with
  | CallMessage ws data => fst (handleMessage throws r ws data)
  | CallInject event => fst (inject throws r event)
  | CallClear => clear r
  | CallClosed ws => connectionClosed r ws
  end.

(** The relay after a sequence of calls on a fresh instance. *)
Definition run (throws : Conn -> bool) (calls : list Call) : Relay :=
  fold_left (call throws) calls createMockRelay.

(** The message is an EVENT for the subscription [subId] of [ws]. *)
Definition isDeliveryTo (ws : Conn) (subId : string) (m : Conn * RelayMsg)
  : bool :=
  Nat.eqb (fst m) ws &&
  match snd m with
  | EVENT s _ => String.eqb s subId
  | _ => false
  end.

(** The deliveries a fan-out attempts for the subscriptions of one
    connection. *)
Definition tableDeliveries (event : Event) (subWs : Conn)
           (table : list (string * list Filter)) : Wire :=
  flat_map (fun '(subId, filters) =>
    if matchesFilters event filters
    then [(subWs, EVENT subId event)]
    else []) table.

(** The message is for another receiver than the subscription [subId] of
    [ws]. *)
Definition notDeliveryTo (ws : Conn) (subId : string) (m : Conn * RelayMsg)
  : bool :=
  negb (isDeliveryTo ws subId m).

(** The message goes to another socket than [ws]. *)
Definition notTo (ws : Conn) (m : Conn * RelayMsg) : bool :=
  negb (Nat.eqb (fst m) ws).

(** [handleMessage] answers the message with a refusal: it is not JSON,
    not an array of two elements, of an unknown type, or an EVENT whose
    event fails validation. *)
Definition refused (data : ClientMsg) : bool :=
  match data with
  | InvalidJson | InvalidFormat | ClientOther _ => true
  | ClientEVENT event => invalidEvent event
  | ClientREQ _ _ | ClientCLOSE _ => false
  end.

(** The message tells the sender of a refusal. *)
Definition isRefusal (m : RelayMsg) : bool :=
  match m with
  | NOTICE _ => true
  | OK _ accepted _ => negb accepted
  | _ => false
  end.

(** The string holds no [':']. *)
Fixpoint noColon (s : string) : bool :=
  match s with
  | EmptyString => true
  | String c rest => negb (Ascii.eqb c ":") && noColon rest
  end.

(** The value of the first ['d'] tag as it enters the replaceable key. *)
Definition discriminator (event : Event) : string :=
  match find (fun t => Js.eqb_opt (nth_error t 0) (Some "d")) (tags event) with
  | Some t => Js.interp (nth_error t 1)
  | None => ""
  end.

(** The kind is parameterized-replaceable. *)
Definition parameterized (k : Z) : bool := (k >=? 30000) && (k <? 40000).

(** The connection [ws] holds a subscription [subId]. *)
Definition registered (r : Relay) (ws : Conn) (subId : string) : bool :=
  match JsMap.get Nat.eqb ws (subscriptions r) with
  | Some table => JsMap.has String.eqb subId table
  | None => false
  end.

(** * Event factories (src/events.cjs)

    The factories build the events that scenarios inject into the relay.
    An options object is a record of optional properties: a property is
    absent or holds a value.  What the code draws from outside -- the
    SHA-256 digest of the serialized event, random bytes, the clock --
    is a parameter. *)

(** The properties of [opts] that [createEvent] reads. *)
Record EventOpts := mkEventOpts {
  optKind : option Z;
  optContent : option string;
  optTags : option (list (list string));
  optPubkey : option string;
  optCreatedAt : option Z
}.

(** The options of [textNote]. *)
Record NoteOpts := mkNoteOpts {
  noteEvent : EventOpts;
  mention : option string;
  reply : option string
}.

(** The options of [marketplaceTask]. *)
Record TaskOpts := mkTaskOpts {
  taskEvent : EventOpts;
  taskId : option string;
  description : option string;
  status : option string;
  capabilities : option (list string)
}.

(** [x || d] for a string that may be [undefined]. *)
Definition orString (x : option string) (d : string) : string :=
  if Js.truthy_str x then Js.interp x else d.

(** [x || []] for an array that may be [undefined]. *)
Definition orEmpty {A} (x : option (list A)) : list A :=
  match x with
  | Some l => l
  | None => []
  end.

(** A destructuring default, [{ x = d } = opts]. *)
Definition orDefault {A} (x : option A) (d : A) : A :=
  match x with
  | Some v => v
  | None => d
  end.

(** The object literal [{ kind, content, tags, ...opts }]: the properties
    of [opts] that are present override the three given ones. *)
Definition spread (k : Z) (c : string) (t : list (list string))
           (opts : EventOpts) : EventOpts :=
  mkEventOpts (Some (orDefault (optKind opts) k))
              (Some (orDefault (optContent opts) c))
              (Some (orDefault (optTags opts) t))
              (optPubkey opts) (optCreatedAt opts).

Section Factories.

(** The hex SHA-256 of [JSON.stringify([0, pubkey, created_at, kind, tags,
    content])]. *)
Variable digest : string -> Z -> Z -> list (list string) -> string -> string.

(** [generateKeypair().pubkey], the fake signature, [crypto.randomUUID()]
    and [Math.floor(Date.now() / 1000)] of one call. *)
Variables (randomPubkey randomSig randomUUID : string) (now : Z).

Definition createEvent (opts : EventOpts) : Event :=
  let k := orDefault (optKind opts) 1 in
  let c := orDefault (optContent opts) "" in
  let t := orDefault (optTags opts) [] in
  let p := orDefault (optPubkey opts) randomPubkey in
  let at_ := orDefault (optCreatedAt opts) now in
  mkEvent (Some (digest p at_ k t c)) (Some p) (Some k) at_ t c randomSig.

Definition textNote (text : string) (opts : NoteOpts) : Event :=
  let t0 := orEmpty (optTags (noteEvent opts)) in
  let t1 := if Js.truthy_str (mention opts)
            then (t0 ++ [["p"; Js.interp (mention opts)]])%list else t0 in
  let t2 := if Js.truthy_str (reply opts)
            then (t1 ++ [["e"; Js.interp (reply opts)]])%list else t1 in
  createEvent (spread 1 text t2 (noteEvent opts)).

Definition dm (text recipientPubkey : string) (opts : EventOpts) : Event :=
  createEvent
    (spread 4 text (["p"; recipientPubkey] :: orEmpty (optTags opts)) opts).

Definition dvmRequest (dvmKind : Z) (text providerPubkey : string)
           (opts : EventOpts) : Event :=
  createEvent
    (spread (5000 + dvmKind) text
            (["p"; providerPubkey] :: orEmpty (optTags opts)) opts).

Definition dvmResult (dvmKind : Z) (text requesterPubkey : string)
           (opts : EventOpts) : Event :=
  createEvent
    (spread (6000 + dvmKind) text
            (["p"; requesterPubkey] :: orEmpty (optTags opts)) opts).

Definition marketplaceTask (title : string) (budget : Z) (opts : TaskOpts)
  : Event :=
  let tid := orString (taskId opts) randomUUID in
  createEvent
    (spread 30950 (orString (description opts) "")
            ([["d"; tid]; ["title"; title]; ["budget"; Js.show budget];
              ["status"; orString (status opts) "open"]]
             ++ map (fun c => ["c"; c]) (orEmpty (capabilities opts))
             ++ orEmpty (optTags (taskEvent opts)))%list
            (taskEvent opts)).

End Factories.

(** Options with nothing but the author. *)
Definition byAuthor (p : string) : EventOpts :=
  mkEventOpts None None None (Some p) None.

(** The filter [{ kinds: [k], '#p': [p] }]. *)
Definition kindToFilter (k : Z) (p : string) : Filter :=
  mkFilter None None (Some [k]) None None None [("#p", [p])].

(** A stand-in for the digest, and sample options. *)
Definition sampleDigest
  : string -> Z -> Z -> list (list string) -> string -> string :=
  fun p _ _ _ c => p ++ c.

Definition taskOptsOpen : TaskOpts :=
  mkTaskOpts (mkEventOpts None None None (Some "alice") (Some 1000))
             (Some "task-1") None None None.

Definition taskOptsClaimed : TaskOpts :=
  mkTaskOpts (mkEventOpts None None None (Some "alice") (Some 2000))
             (Some "task-1") None (Some "claimed") None.

Definition helloOpts : EventOpts :=
  mkEventOpts None (Some "hi") None (Some "alice") (Some 1000).

(** * Properties *)

(** ** JavaScript values *)

Lemma Js_eqb_opt_eq a b : Js.eqb_opt a b = true <-> a = b.
Proof.
  destruct a as [x|], b as [y|]; simpl; try (split; congruence).
  rewrite String.eqb_eq. split; congruence.
Qed.

Lemma Js_eqb_opt_refl a : Js.eqb_opt a a = true.
Proof. now apply Js_eqb_opt_eq. Qed.

(** ** The filter predicate *)

Lemma isTagKey_tagKey c : isTagKey (tagKey c) = true.
Proof.
  unfold isTagKey, tagKey. simpl.
  destruct (Ascii.ascii_dec "#" "#") as [_|N]; [reflexivity | now elim N].
Qed.

Lemma isTagKey_inv key : isTagKey key = true -> exists c, key = tagKey c.
Proof.
  unfold isTagKey. intros H. apply andb_true_iff in H as [P L].
  apply Nat.eqb_eq in L.
  destruct key as [|a [|c [|d k]]]; simpl in L; try discriminate.
  cbn [String.prefix] in P.
  destruct (Ascii.ascii_dec "#" a) as [E|N]; [|discriminate].
  subst a. now exists c.
Qed.

Lemma isTagKey_length key : isTagKey key = true -> String.length key = 2%nat.
Proof.
  intros H. apply isTagKey_inv in H as [c ->]. reflexivity.
Qed.

Lemma tagEntryOk_spec event key values :
  isTagKey key = true ->
  tagEntryOk event (key, values) = true <->
  hasTagIn event (String.substring 1 1 key) values.
Proof.
  intros K. unfold tagEntryOk, hasTagIn. rewrite K.
  set (name := String.substring 1 1 key).
  rewrite existsb_exists. split.
  - intros (v & Hv & H). apply existsb_exists in H as (w & Hw & E).
    apply in_map_iff in Hw as (t & <- & Ht).
    apply filter_In in Ht as [Ht N].
    apply Js_eqb_opt_eq in N, E. now exists t, v.
  - intros (t & v & Ht & N & V & Hv). exists v. split; [assumption|].
    apply existsb_exists. exists (nth_error t 1). split.
    + apply in_map_iff. exists t. split; [reflexivity|].
      apply filter_In. split; [assumption|]. now apply Js_eqb_opt_eq.
    + now apply Js_eqb_opt_eq.
Qed.

Lemma tagEntryOk_not_tag event key values :
  isTagKey key = false -> tagEntryOk event (key, values) = true.
Proof. intros K. unfold tagEntryOk. now rewrite K. Qed.

(** The checks on the named fields and the loop over the entries are
    independent. *)
Lemma matchesFilter_split event f :
  matchesFilter event f =
  matchesFilter event (withTagEntries f []) &&
  forallb (tagEntryOk event) (tagEntries f).
Proof.
  unfold matchesFilter, withTagEntries; simpl.
  repeat match goal with
         | |- context [if ?c then false else _] => destruct c; simpl; trivial
         end.
Qed.

Lemma sinceOk_spec event f : sinceOk event f = true <-> sinceHolds event f.
Proof.
  unfold sinceOk, sinceHolds, Js.truthy. destruct (since f) as [s|].
  - destruct (Z.eqb_spec s 0), (Z.ltb_spec (created_at event) s); simpl;
      split; intros Hx; try reflexivity; try discriminate;
      try (intros x E; inversion E; subst; lia);
      try (exfalso; specialize (Hx _ eq_refl); lia).
  - split; trivial. discriminate.
Qed.

Lemma untilOk_spec event f : untilOk event f = true <-> untilHolds event f.
Proof.
  unfold untilOk, untilHolds, Js.truthy. destruct (until f) as [u|].
  - rewrite Z.gtb_ltb.
    destruct (Z.eqb_spec u 0), (Z.ltb_spec u (created_at event)); simpl;
      split; intros Hx; try reflexivity; try discriminate;
      try (intros x E; inversion E; subst; lia);
      try (exfalso; specialize (Hx _ eq_refl); lia).
  - split; trivial. discriminate.
Qed.

Lemma matchesFilter_bounds_split event f :
  matchesFilter event f =
  matchesFilter event (withBounds f None None) &&
  sinceOk event f && untilOk event f.
Proof.
  unfold matchesFilter, withBounds, sinceOk, untilOk; simpl.
  destruct (ids f); destruct (authors f); destruct (kinds f);
    destruct (since f); destruct (until f); simpl;
    repeat match goal with
           | |- context [if ?c then false else _] => destruct c; simpl; trivial
           end;
    rewrite ?andb_true_r, ?andb_false_r; trivial.
Qed.

Lemma matchesFilter_bounds event f :
  matchesFilter event f = true <->
  matchesFilter event (withBounds f None None) = true /\
  sinceHolds event f /\ untilHolds event f.
Proof.
  rewrite matchesFilter_bounds_split, !andb_true_iff.
  rewrite sinceOk_spec, untilOk_spec. tauto.
Qed.

(** ** Time bounds *)

(** C6, at the failing input: the filter [{until: 0}] matches an event
    created at 1000 although 1000 <= 0 is false, and [{since: 0}] matches
    an event created at -1 although 0 <= -1 is false, because a bound of 0
    is falsy and skips its test; the bounds 1 and -1 next to them are
    enforced. *)
Theorem zero_bound_is_not_enforced :
  matchesFilter (note "a" 1000 [])
                (mkFilter None None None None (Some 0) None []) = true /\
  ~ boundsAsSpecified (note "a" 1000 [])
      (mkFilter None None None None (Some 0) None []) /\
  matchesFilter (note "a" 1000 [])
                (mkFilter None None None None (Some 1) None []) = false /\
  matchesFilter (note "b" (-1) [])
                (mkFilter None None None (Some 0) None None []) = true /\
  ~ boundsAsSpecified (note "b" (-1) [])
      (mkFilter None None None (Some 0) None None []) /\
  matchesFilter (note "b" (-2) [])
                (mkFilter None None None (Some (-1)) None None []) = false.
Proof.
  repeat split.
  - intros H. destruct (H eq_refl) as [_ U].
    specialize (U 0 eq_refl). simpl in U. lia.
  - intros H. destruct (H eq_refl) as [S _].
    specialize (S 0 eq_refl). simpl in S. lia.
Qed.

(** What the two checks on the timestamp do: a filter matches an event
    exactly when it matches with both time bounds removed and each bound
    that is present and not 0 holds inclusively, [since <= created_at]
    and [created_at <= until]; a bound that is absent or 0 passes every
    event. *)
Theorem time_bounds_inclusive_when_nonzero (event : Event) (f : Filter) :
  (matchesFilter event f = true <->
   matchesFilter event (withBounds f None None) = true /\
   sinceHolds event f /\ untilHolds event f) /\
  (forall s u,
     s = None \/ s = Some 0 -> u = None \/ u = Some 0 ->
     matchesFilter event (withBounds f s u) =
     matchesFilter event (withBounds f None None)).
Proof.
  split; [apply matchesFilter_bounds|].
  intros s u Hs Hu. rewrite matchesFilter_bounds_split.
  unfold sinceOk, untilOk, withBounds; simpl.
  destruct Hs as [-> | ->], Hu as [-> | ->]; simpl;
    now rewrite ?andb_true_r.
Qed.

Lemma time_bounds_inclusive_when_nonzero_witness :
  1000 <= created_at (note "a" 1000 []) /\
  created_at (note "a" 1000 []) <= 1000.
Proof.
  pose (f := mkFilter None None None (Some 1000) (Some 1000) None []).
  destruct (proj1 (proj1 (time_bounds_inclusive_when_nonzero
                            (note "a" 1000 []) f)) eq_refl) as (_ & S & U).
  split; [apply (S 1000 eq_refl) | apply (U 1000 eq_refl)]; discriminate.
Defined.

(** ** Tag constraints *)




(** C10: a filter entry whose key is ['#'] followed by a name of more than
    one character, such as ['#foo'], is ignored: it holds of every event
    and removing it does not change the result. *)
Theorem long_tag_name_ignored
        (event : Event) (f : Filter) (name : string) (values : list string)
        (before after : list (string * list string)) :
  (1 < String.length name)%nat ->
  tagEntryOk event ("#" ++ name, values) = true /\
  matchesFilter event
    (withTagEntries f
       (before ++ (("#" ++ name)%string, values) :: after)%list) =
  matchesFilter event (withTagEntries f (before ++ after)%list).
Proof.
  intros L. set (key := "#" ++ name).
  assert (K : isTagKey key = false).
  { destruct (isTagKey key) eqn:K; trivial.
    apply isTagKey_length in K. subst key. simpl in K. lia. }
  assert (E : tagEntryOk event (key, values) = true)
    by now apply tagEntryOk_not_tag.
  split; [assumption|].
  rewrite (matchesFilter_split event
             (withTagEntries f (before ++ _ :: after)%list)).
  rewrite (matchesFilter_split event
             (withTagEntries f (before ++ after)%list)).
  unfold withTagEntries;
    cbn [ids authors kinds since until limit tagEntries].
  rewrite !forallb_app. cbn [forallb]. rewrite E. reflexivity.
Qed.

Lemma long_tag_name_ignored_witness :
  matchesFilter (note "a" 1 []) (tagFilter [("#foo", ["x"])]) =
  matchesFilter (note "a" 1 []) (tagFilter []).
Proof.
  apply (long_tag_name_ignored (note "a" 1 []) emptyFilter "foo" ["x"] [] []).
  simpl. lia.
Defined.

(** ** clear *)

(** C9: after [clear()] every query is empty, whatever the store held, and
    the subscription table is the one before the call. *)
Theorem clear_resets_store_only (r : Relay) :
  getEvents (clear r) None = [] /\
  (forall f, getEvents (clear r) (Some f) = []) /\
  statusEvents (clear r) = 0%nat /\
  subscriptions (clear r) = subscriptions r.
Proof. repeat split. Qed.

(** ** The event store *)

Lemma fold_delete_filter (cond : Event -> bool) (l m : EvMap.t) :
  fold_left
    (fun m p => let '(k, existing) := p in
                if cond existing then EvMap.delete k m else m) l m =
  filter (fun p => negb (existsb (fun q => Js.eqb_opt (fst p) (fst q)
                                           && cond (snd q)) l)) m.
Proof.
  revert m. induction l as [|[k x] l IH]; intros m; simpl.
  - induction m as [|p m IHm]; simpl; congruence.
  - rewrite IH. destruct (cond x) eqn:C.
    + unfold EvMap.delete, JsMap.delete.
      induction m as [|p m IHm]; simpl; trivial.
      destruct (Js.eqb_opt (fst p) k); simpl; rewrite IHm; trivial.
    + apply filter_ext. intros p. now rewrite andb_false_r.
Qed.

Lemma keys_unique (m : EvMap.t) p q :
  NoDup (EvMap.keys m) -> In p m -> In q m -> fst p = fst q -> p = q.
Proof.
  induction m as [|a m IH]; simpl; intros ND Hp Hq E; [contradiction|].
  inversion ND as [|? ? Hnotin ND']; subst.
  destruct Hp as [<-|Hp], Hq as [<-|Hq]; trivial.
  - elim Hnotin. rewrite E. now apply in_map.
  - elim Hnotin. rewrite <- E. now apply in_map.
  - now apply IH.
Qed.

(** On a table with distinct keys the loop deletes exactly the entries it
    tests positively. *)
Lemma removeOlder_filter rKey event (m : EvMap.t) :
  NoDup (EvMap.keys m) ->
  removeOlder rKey event m =
  filter (fun p => negb (superseded rKey event (snd p))) m.
Proof.
  intros ND. unfold removeOlder.
  rewrite (fold_delete_filter (superseded rKey event)).
  apply filter_ext_in. intros p Hp. f_equal.
  destruct (superseded rKey event (snd p)) eqn:S.
  - apply existsb_exists. exists p. split; [assumption|].
    now rewrite Js_eqb_opt_refl.
  - destruct (existsb _ m) eqn:X; trivial.
    apply existsb_exists in X as (q & Hq & H).
    apply andb_true_iff in H as [K C]. apply Js_eqb_opt_eq in K.
    rewrite (keys_unique m p q ND Hp Hq K) in S. congruence.
Qed.

Lemma has_In k (m : EvMap.t) :
  EvMap.has k m = true <-> In k (EvMap.keys m).
Proof.
  unfold EvMap.has, JsMap.has, EvMap.keys. rewrite existsb_exists, in_map_iff.
  split; intros (p & A & B).
  - apply Js_eqb_opt_eq in B. now exists p.
  - exists p. split; [assumption | now apply Js_eqb_opt_eq].
Qed.

Lemma wf_filter (g : option string * Event -> bool) (m : EvMap.t) :
  EvMap.wf m -> EvMap.wf (filter g m).
Proof.
  intros [ND F]. split.
  - unfold EvMap.keys in *. induction m as [|p m IH]; simpl; trivial.
    inversion ND; subst. inversion F; subst.
    destruct (g p); simpl; auto. constructor; auto.
    intros Hin. apply in_map_iff in Hin as (q & E & Hq).
    apply filter_In in Hq as [Hq _]. match goal with H : ~ In _ _ |- _ =>
      apply H end. rewrite <- E. now apply in_map.
  - apply Forall_forall. intros p Hp. apply filter_In in Hp as [Hp _].
    now apply (proj1 (Forall_forall _ _) F).
Qed.

(** [storeEvent] keeps the table well formed. *)
Lemma storeEvent_wf event (m : EvMap.t) :
  EvMap.wf m -> EvMap.wf (fst (storeEvent event m)).
Proof.
  intros W. unfold storeEvent.
  set (m1 := match replaceableKey event with
             | Some r => if Js.truthy_str (replaceableKey event)
                         then removeOlder r event m else m
             | None => m
             end).
  assert (W1 : EvMap.wf m1).
  { subst m1. destruct (replaceableKey event) as [r|]; trivial.
    destruct (Js.truthy_str (Some r)); trivial.
    rewrite removeOlder_filter by apply W. now apply wf_filter. }
  destruct (EvMap.has (id event) m1) eqn:H; simpl; trivial.
  unfold EvMap.set, JsMap.set. fold (EvMap.has (id event) m1). rewrite H.
  destruct W1 as [ND F]. split.
  - unfold EvMap.keys. rewrite map_app. simpl.
    apply NoDup_app; trivial.
    + constructor; [intros []| constructor].
    + intros k A [<-|[]]. apply has_In in A. congruence.
  - apply Forall_app. split; trivial. now constructor.
Qed.

(** An event that is not replaceable and whose id is stored leaves the
    table as it is and is reported as not stored. *)
Lemma storeEvent_regular_duplicate event (m : EvMap.t) :
  replaceableKey event = None ->
  EvMap.has (id event) m = true ->
  storeEvent event m = (m, false).
Proof. intros K H. unfold storeEvent. now rewrite K, H. Qed.

Lemma replaceableKey_truthy event rKey :
  replaceableKey event = Some rKey -> Js.truthy_str (Some rKey) = true.
Proof.
  unfold replaceableKey. destruct (kind event) as [k|]; [|discriminate].
  destruct ((k >=? 30000) && (k <? 40000));
    [|destruct ((k =? 0) || (k =? 3) || ((k >=? 10000) && (k <? 20000)))];
    intros K; inversion K; unfold Js.show;
    destruct (NilZero.string_of_int (Z.to_int k)); reflexivity.
Qed.

(** [storeEvent] on a replaceable event, in closed form. *)
Lemma storeEvent_replaceable event rKey (m : EvMap.t) :
  NoDup (EvMap.keys m) ->
  replaceableKey event = Some rKey ->
  storeEvent event m =
  let m1 := filter (fun p => negb (superseded rKey event (snd p))) m in
  if EvMap.has (id event) m1 then (m1, false)
  else ((m1 ++ [(id event, event)])%list, true).
Proof.
  intros ND K. unfold storeEvent. rewrite K.
  rewrite (replaceableKey_truthy event rKey K).
  rewrite removeOlder_filter by assumption. cbv zeta.
  destruct (EvMap.has (id event) _) eqn:H; trivial.
  unfold EvMap.set, JsMap.set. unfold EvMap.has in H. now rewrite H.
Qed.

(** An older version that arrives after the newer ones is stored beside
    them. *)
Lemma storeEvent_keeps_late_older_version event rKey (m : EvMap.t) :
  NoDup (EvMap.keys m) ->
  replaceableKey event = Some rKey ->
  EvMap.has (id event) m = false ->
  (forall p, In p m -> replaceableKey (snd p) = Some rKey ->
             created_at event < created_at (snd p)) ->
  storeEvent event m = ((m ++ [(id event, event)])%list, true).
Proof.
  intros ND K H Newer. rewrite (storeEvent_replaceable event rKey) by assumption.
  assert (E : filter (fun p => negb (superseded rKey event (snd p))) m = m).
  { apply forallb_filter_id, forallb_forall. intros p Hp.
    unfold superseded. destruct (Js.eqb_opt _ _) eqn:Q; trivial.
    apply Js_eqb_opt_eq in Q. specialize (Newer p Hp Q). simpl.
    apply negb_true_iff, Z.leb_gt. assumption. }
  cbv zeta. now rewrite E, H.
Qed.

(** A replaceable event that is stored is stored again. *)
Lemma storeEvent_replaceable_duplicate event rKey (m : EvMap.t) :
  NoDup (EvMap.keys m) ->
  In (id event, event) m ->
  replaceableKey event = Some rKey ->
  snd (storeEvent event m) = true.
Proof.
  intros ND Hin K. rewrite (storeEvent_replaceable event rKey) by assumption.
  cbv zeta. destruct (EvMap.has (id event) _) eqn:H; trivial. exfalso.
  apply has_In in H. unfold EvMap.keys in H.
  apply in_map_iff in H as (p & E & Hp). apply filter_In in Hp as [Hp S].
  rewrite (keys_unique m p (id event, event) ND Hp Hin E) in S.
  unfold superseded in S. simpl in S.
  rewrite K, Js_eqb_opt_refl, Z.leb_refl in S. discriminate.
Qed.

(** After a replaceable event went through [storeEvent], whatever the table
    still holds under its replaceable key is the event itself or is
    strictly newer. *)
Lemma storeEvent_supersedes event rKey (m : EvMap.t) p :
  EvMap.wf m ->
  replaceableKey event = Some rKey ->
  In p (fst (storeEvent event m)) ->
  replaceableKey (snd p) = Some rKey ->
  snd p = event \/ created_at event < created_at (snd p).
Proof.
  intros [ND _] K Hin Kp. unfold storeEvent in Hin. rewrite K in Hin.
  rewrite (replaceableKey_truthy event rKey K), removeOlder_filter in Hin
    by assumption.
  assert (Old : forall q,
             In q (filter (fun p => negb (superseded rKey event (snd p))) m) ->
             replaceableKey (snd q) = Some rKey ->
             created_at event < created_at (snd q)).
  { intros q Hq Kq. apply filter_In in Hq as [_ S].
    unfold superseded in S. rewrite Kq, Js_eqb_opt_refl in S. simpl in S.
    apply negb_true_iff, Z.leb_gt in S. assumption. }
  destruct (EvMap.has (id event) _) eqn:H; simpl in Hin.
  - right. now apply Old.
  - unfold EvMap.set, JsMap.set in Hin.
    unfold EvMap.has in H. rewrite H in Hin.
    apply in_app_iff in Hin as [Hin|[<-|[]]]; [right; now apply Old | now left].
Qed.

(** C1, at the failing input: the two versions share their replaceable
    key; submitted oldest first the store answers the query on that key
    with the newer one alone, submitted newest first it keeps both. *)
Theorem older_version_arriving_late_is_kept :
  replaceableKey taskOpen = replaceableKey taskClaimed /\
  getEvents (injected (injected createMockRelay taskOpen) taskClaimed)
            (Some taskFilter) = [taskClaimed] /\
  getEvents (injected (injected createMockRelay taskClaimed) taskOpen)
            (Some taskFilter) = [taskClaimed; taskOpen].
Proof. repeat split. Qed.

(** C2, at the failing input: a replaceable event whose id is stored is
    deleted by the supersession loop before the id is looked up, so the
    second submission stores it again and returns [true]; when an older
    version is stored too, the second submission also shrinks the store. *)
Theorem replaceable_duplicate_is_stored_again :
  let r := injected createMockRelay taskOpen in
  let r' := injected (injected createMockRelay taskClaimed) taskOpen in
  EvMap.has (id taskOpen) (events r) = true /\
  snd (snd (inject allOpen r taskOpen)) = Returned true /\
  EvMap.has (id taskClaimed) (events r') = true /\
  List.length (getEvents r' None) = 2%nat /\
  List.length (getEvents (injected r' taskClaimed) None) = 1%nat.
Proof. repeat split. Qed.

(** ** Sending *)

Lemma bind_ret_l {A B} (a : A) (f : A -> Eff B) : bind (ret a) f = f a.
Proof. unfold bind, ret. now destruct (f a). Qed.

Lemma bind_assoc {A B C} (x : Eff A) (f : A -> Eff B) (g : B -> Eff C) :
  bind (bind x f) g = bind x (fun a => bind (f a) g).
Proof.
  destruct x as [w [a|]]; simpl; trivial.
  destruct (f a) as [w1 [b|]]; simpl; trivial.
  destruct (g b) as [w2 o]. now rewrite app_assoc.
Qed.

Lemma forEach_app {A} (xs ys : list A) (body : A -> Eff unit) :
  forEach (xs ++ ys) body = (forEach xs body ;; forEach ys body).
Proof.
  induction xs as [|x xs IH]; cbn [forEach app].
  - now rewrite bind_ret_l.
  - now rewrite IH, bind_assoc.
Qed.

Lemma forEach_flat_map {A B} (g : A -> list B) (xs : list A)
      (body : B -> Eff unit) :
  forEach xs (fun x => forEach (g x) body) = forEach (flat_map g xs) body.
Proof.
  induction xs as [|x xs IH]; cbn [forEach flat_map]; trivial.
  now rewrite forEach_app, IH.
Qed.

Lemma forEach_ext {A} (xs : list A) (f g : A -> Eff unit) :
  (forall x, f x = g x) -> forEach xs f = forEach xs g.
Proof.
  intros E. induction xs as [|x xs IH]; cbn [forEach]; trivial.
  now rewrite E, IH.
Qed.

(** Both fan-outs walk the list of [deliveries]. *)
Lemma broadcast_deliveries throws event subs :
  broadcast throws event subs =
  forEach (deliveries event subs) (fun m => send throws (fst m) (snd m)).
Proof.
  unfold broadcast, deliveries. rewrite <- forEach_flat_map.
  apply forEach_ext. intros [subWs table]. rewrite <- forEach_flat_map.
  apply forEach_ext. intros [subId filters].
  destruct (matchesFilters event filters); simpl; trivial.
  unfold bind, ret. destruct (send throws subWs _) as [w [[]|]]; simpl;
    now rewrite ?app_nil_r.
Qed.

Lemma broadcastGuarded_deliveries throws event subs :
  broadcastGuarded throws event subs =
  forEach (deliveries event subs)
          (fun m => tryCatch (send throws (fst m) (snd m))).
Proof.
  unfold broadcastGuarded, deliveries. rewrite <- forEach_flat_map.
  apply forEach_ext. intros [subWs table]. rewrite <- forEach_flat_map.
  apply forEach_ext. intros [subId filters].
  destruct (matchesFilters event filters); simpl; trivial.
  unfold bind, ret, tryCatch. simpl. now rewrite app_nil_r.
Qed.

(** The unguarded fan-out stops at the first socket that throws. *)
Lemma broadcast_spec throws event subs :
  broadcast throws event subs =
  (takeWhile (reaches throws) (deliveries event subs),
   if forallb (reaches throws) (deliveries event subs)
   then Returned tt else Thrown).
Proof.
  rewrite broadcast_deliveries.
  induction (deliveries event subs) as [|[c m] w IH]; simpl; trivial.
  rewrite IH. unfold send, reaches. simpl. now destruct (throws c).
Qed.

(** The guarded fan-out skips the sockets that throw and goes on. *)
Lemma broadcastGuarded_spec throws event subs :
  broadcastGuarded throws event subs =
  (filter (reaches throws) (deliveries event subs), Returned tt).
Proof.
  rewrite broadcastGuarded_deliveries.
  induction (deliveries event subs) as [|[c m] w IH]; simpl; trivial.
  rewrite IH. unfold send, reaches, tryCatch. simpl. now destruct (throws c).
Qed.

(** [inject] isolates delivery failures: every matching subscription on a
    socket that does not throw is served, and the result is the one of
    [storeEvent]. *)
Lemma inject_isolates_failures throws r event :
  snd (inject throws r event) =
  (if snd (storeEvent event (events r))
   then filter (reaches throws) (deliveries event (subscriptions r))
   else [],
   Returned (snd (storeEvent event (events r)))).
Proof.
  unfold inject. destruct (storeEvent event (events r)) as [m isNew]. simpl.
  destruct isNew.
  - rewrite broadcastGuarded_spec. simpl. now rewrite app_nil_r.
  - reflexivity.
Qed.

(** C5, at the failing input: with two matching subscribers of which the
    first throws on [send], the EVENT branch of [handleMessage] ends in
    the exception after the acknowledgment and the second subscriber gets
    nothing, whereas [inject] serves the second subscriber and returns
    [true]. *)
Theorem transport_fanout_stops_at_failure :
  snd (handleMessage firstThrows twoSubscribers 0%nat
                     (ClientEVENT (Some (note "a" 1000 [])))) =
  ([(0%nat, OK "a" true "")], Thrown) /\
  snd (inject firstThrows twoSubscribers (note "a" 1000 [])) =
  ([(2%nat, EVENT "s2" (note "a" 1000 []))], Returned true).
Proof. split; reflexivity. Qed.

Example twoSubscribers_tables :
  subscriptions twoSubscribers =
  [(1%nat, [("s1", [emptyFilter])]); (2%nat, [("s2", [emptyFilter])])].
Proof. reflexivity. Qed.

(** ** Validation and acknowledgment *)

(** An event without a truthy [id] or [pubkey] is refused and the relay is
    left as it was. *)
Lemma event_without_id_or_pubkey_rejected throws r ws event :
  Js.truthy_str (id event) = false \/ Js.truthy_str (pubkey event) = false ->
  handleMessage throws r ws (ClientEVENT (Some event)) =
  (r, send throws ws (OK (idOrEmpty (Some event)) false "Invalid event")).
Proof.
  intros H. unfold handleMessage.
  assert (I : invalidEvent (Some event) = true).
  { unfold invalidEvent. destruct H as [-> | ->]; simpl; trivial.
    now rewrite orb_true_r. }
  now rewrite I.
Qed.

(** The check never looks at [kind]. *)
Lemma invalidEvent_spec event :
  invalidEvent (Some event) =
  negb (Js.truthy_str (id event)) || negb (Js.truthy_str (pubkey event)).
Proof. unfold invalidEvent, boolIsUndefined. now rewrite orb_false_r. Qed.

(** C7, at the failing input: an event without [kind] passes the check,
    is stored and is acknowledged with [true]. *)
Theorem event_without_kind_is_stored :
  invalidEvent (Some kindless) = false /\
  handleMessage allOpen createMockRelay 0%nat (ClientEVENT (Some kindless)) =
  (mkRelay [(Some "a", kindless)] [],
   ([(0%nat, OK "a" true "")], Returned tt)).
Proof. split; reflexivity. Qed.

Lemma acksOf_deliveries g event subs :
  acksOf (takeWhile g (deliveries event subs)) = [].
Proof.
  assert (F : Forall (fun m => exists s, snd m = EVENT s event)
                     (deliveries event subs)).
  { unfold deliveries. apply Forall_flat_map, Forall_forall.
    intros [subWs table] _. apply Forall_flat_map, Forall_forall.
    intros [subId filters] _. destruct (matchesFilters event filters);
      repeat constructor. now exists subId. }
  induction F as [|m w [s E] F IH]; simpl; trivial.
  destruct (g m); simpl; trivial. now rewrite E, IH.
Qed.

(** C3, as stated, fails: a second submission of a stored note is
    acknowledged with [true]. *)
Lemma duplicate_is_acknowledged_true :
  ~ ackAsSpecified allOpen (injected createMockRelay (note "a" 1000 []))
      0%nat (note "a" 1000 []).
Proof. unfold ackAsSpecified. simpl. discriminate. Qed.

(** C3, amended: the acknowledgment of an EVENT carries [accepted = true]
    whenever the event passes validation, when its id is already stored
    as well as when it is new, and [accepted = false] only when the event
    fails validation.  It is the single acknowledgment and, for a valid
    event, the first message sent; what follows it is the fan-out that
    [storeEvent] decides. *)
Theorem event_ack_reports_validity throws r ws event :
  throws ws = false ->
  let wire := fst (snd (handleMessage throws r ws (ClientEVENT (Some event)))) in
  acksOf wire = [(ws, negb (invalidEvent (Some event)))] /\
  (invalidEvent (Some event) = false ->
   wire =
   (ws, OK (Js.interp (id event)) true "") ::
   (if snd (storeEvent event (events r))
    then takeWhile (reaches throws) (deliveries event (subscriptions r))
    else [])).
Proof.
  intros A wire. subst wire. unfold handleMessage.
  destruct (invalidEvent (Some event)) eqn:V.
  - unfold send. rewrite A. split; [reflexivity | discriminate].
  - destruct (storeEvent event (events r)) as [m isNew]. cbn [fst snd].
    unfold send. rewrite A. destruct isNew.
    + rewrite broadcast_spec. cbn [bind fst snd app acksOf flat_map negb].
      rewrite acksOf_deliveries. split; reflexivity.
    + split; reflexivity.
Qed.

Lemma event_ack_reports_validity_witness :
  acksOf (fst (snd (handleMessage allOpen
                      (injected createMockRelay (note "a" 1000 [])) 0%nat
                      (ClientEVENT (Some (note "a" 1000 [])))))) =
  [(0%nat, true)].
Proof.
  apply (event_ack_reports_validity allOpen
           (injected createMockRelay (note "a" 1000 [])) 0%nat
           (note "a" 1000 []) eq_refl).
Defined.

(** ** Sorting *)

Lemma insertNewestFirst_perm a l : Permutation (insertNewestFirst a l) (a :: l).
Proof.
  induction l as [|b l IH]; simpl; trivial.
  destruct (compareNewestFirst a b <=? 0); trivial.
  rewrite IH. apply perm_swap.
Qed.

Lemma sortNewestFirst_perm l : Permutation (sortNewestFirst l) l.
Proof.
  induction l as [|a l IH]; simpl; trivial.
  rewrite insertNewestFirst_perm. now constructor.
Qed.

Lemma insertNewestFirst_sorted a l :
  StronglySorted newerOrSame l -> StronglySorted newerOrSame (insertNewestFirst a l).
Proof.
  induction 1 as [|b l S IH F]; simpl.
  - repeat constructor.
  - unfold compareNewestFirst.
    destruct (Z.leb_spec (created_at b - created_at a) 0) as [L|L].
    + constructor; [now constructor|]. constructor; [unfold newerOrSame; lia|].
      eapply Forall_impl; [|exact F]. unfold newerOrSame. intros; lia.
    + constructor; trivial.
      apply (Permutation_Forall (Permutation_sym (insertNewestFirst_perm a l))).
      constructor; [unfold newerOrSame; lia | assumption].
Qed.

Lemma sortNewestFirst_sorted l : StronglySorted newerOrSame (sortNewestFirst l).
Proof.
  induction l as [|a l IH]; simpl; [constructor|].
  now apply insertNewestFirst_sorted.
Qed.

(** Events with the same timestamp keep their order. *)
Lemma sortNewestFirst_stable t l :
  filter (fun e => created_at e =? t) (sortNewestFirst l) =
  filter (fun e => created_at e =? t) l.
Proof.
  induction l as [|a l IH]; simpl; trivial. rewrite <- IH.
  generalize (sortNewestFirst l) as s. clear.
  induction s as [|b s IHs]; simpl; trivial.
  unfold compareNewestFirst.
  destruct (Z.leb_spec (created_at b - created_at a) 0) as [L|L]; simpl; trivial.
  rewrite IHs.
  destruct (Z.eqb_spec (created_at a) t), (Z.eqb_spec (created_at b) t);
    trivial; lia.
Qed.

(** ** Backlog replay *)

Lemma fold_limit_Infinity filters :
  fold_left (fun max f => Num.max max (Num.orInfinity (limit f)))
            filters Infinity = Infinity.
Proof. induction filters as [|f fs IH]; simpl; trivial. Qed.

Lemma fold_limit_Fin filters a :
  0 <= a ->
  fold_left (fun max f => Num.max max (Num.orInfinity (limit f)))
            filters (Fin a) =
  if existsb limitAbsentOrZero filters then Infinity
  else Fin (Z.max a (fold_right Z.max 0
                       (map (fun f => match limit f with
                                      | Some n => n
                                      | None => 0
                                      end) filters))).
Proof.
  revert a. induction filters as [|f fs IH]; intros a Ha; simpl.
  - f_equal. lia.
  - unfold limitAbsentOrZero at 1, Num.orInfinity, Js.truthy.
    destruct (limit f) as [n|]; simpl.
    + destruct (Z.eqb_spec n 0); simpl.
      * apply fold_limit_Infinity.
      * rewrite IH by lia. destruct (existsb _ fs); trivial. f_equal. lia.
    + apply fold_limit_Infinity.
Qed.

(** The limit the code computes is the largest limit, 0 read as absent. *)
Lemma replayLimit_largest filters : replayLimit filters = largestLimit filters.
Proof.
  unfold replayLimit, largestLimit. rewrite fold_limit_Fin by lia.
  destruct (existsb _ filters); trivial. f_equal.
  assert (0 <= fold_right Z.max 0
                 (map (fun f => match limit f with
                                | Some n => n
                                | None => 0
                                end) filters)); [|lia].
  induction filters; simpl; lia.
Qed.

Lemma largestLimit_positive filters n :
  limitsNonNegative filters ->
  largestLimit filters = Fin n ->
  0 < n \/ filters = [].
Proof.
  unfold largestLimit, limitsNonNegative. intros NN.
  destruct (existsb limitAbsentOrZero filters) eqn:X; [discriminate|].
  intros E. inversion E; subst; clear E.
  destruct filters as [|f fs]; [now right|left].
  simpl in *. apply orb_false_iff in X as [Xf _].
  inversion NN as [|? ? Hf _]; subst. unfold limitAbsentOrZero in Xf.
  destruct (limit f) as [l|]; [|discriminate].
  apply Z.eqb_neq in Xf. specialize (Hf l eq_refl). lia.
Qed.

Section Replay.

Variable throws : Conn -> bool.
Variables (ws : Conn) (subId : string) (filters : list Filter).
Hypothesis open : throws ws = false.

Lemma replay_unbounded sorted count :
  replay throws ws subId filters Infinity sorted count =
  (map (fun e => (ws, EVENT subId e))
       (filter (fun e => matchesFilters e filters) sorted), Returned tt).
Proof.
  revert count. induction sorted as [|e rest IH]; intros count; simpl; trivial.
  destruct (matchesFilters e filters); simpl; [|apply IH].
  rewrite IH. unfold send. now rewrite open.
Qed.

Lemma replay_bounded n sorted count :
  count < n ->
  replay throws ws subId filters (Fin n) sorted count =
  (map (fun e => (ws, EVENT subId e))
       (firstn (Z.to_nat (n - count))
               (filter (fun e => matchesFilters e filters) sorted)),
   Returned tt).
Proof.
  revert count. induction sorted as [|e rest IH]; intros count L; simpl.
  - now rewrite firstn_nil.
  - destruct (matchesFilters e filters); simpl; [|now apply IH].
    unfold send. rewrite open.
    replace (Z.to_nat (n - count)) with (S (Z.to_nat (n - (count + 1))))
      by lia.
    simpl. destruct (Z.geb_spec (count + 1) n) as [G|G].
    + replace (Z.to_nat (n - (count + 1))) with 0%nat by lia. reflexivity.
    + rewrite IH by lia. reflexivity.
Qed.

Lemma replay_spec limit sorted :
  (forall n, limit = Fin n ->
             0 < n \/ filter (fun e => matchesFilters e filters) sorted = []) ->
  replay throws ws subId filters limit sorted 0 =
  (map (fun e => (ws, EVENT subId e))
       (capTo limit (filter (fun e => matchesFilters e filters) sorted)),
   Returned tt).
Proof.
  intros H. destruct limit as [n|]; simpl; [|apply replay_unbounded].
  destruct (H n eq_refl) as [P|E].
  - rewrite replay_bounded by assumption. now rewrite Z.sub_0_r.
  - rewrite E, firstn_nil. simpl. clear H.
    generalize 0 as count.
    induction sorted as [|e rest IH]; intros count; simpl in *; trivial.
    destruct (matchesFilters e filters); [discriminate|]. now apply IH.
Qed.

End Replay.

(** C4, at the failing inputs: on a store of three matching notes a REQ
    with the filter [{limit: 0}] replays all three before the EOSE, where
    the largest declared limit, 0, allows none; with [{limit: -5}] it
    replays one, the limit being tested only after a send; with
    [{limit: 2}] it replays the two newest. *)
Theorem zero_limit_is_not_a_cap :
  snd (handleMessage allOpen threeNotes 0%nat (ClientREQ "s" [limitFilter 0])) =
  ([(0%nat, EVENT "s" (note "b" 7 []));
    (0%nat, EVENT "s" (note "a" 5 []));
    (0%nat, EVENT "s" (note "c" 5 []));
    (0%nat, EOSE "s")], Returned tt) /\
  replayAsSpecified threeNotes 0%nat "s" [limitFilter 0] =
  [(0%nat, EOSE "s")] /\
  snd (handleMessage allOpen threeNotes 0%nat
                     (ClientREQ "s" [limitFilter (-5)])) =
  ([(0%nat, EVENT "s" (note "b" 7 [])); (0%nat, EOSE "s")], Returned tt) /\
  replayAsSpecified threeNotes 0%nat "s" [limitFilter (-5)] =
  [(0%nat, EOSE "s")] /\
  snd (handleMessage allOpen threeNotes 0%nat (ClientREQ "s" [limitFilter 2])) =
  (replayAsSpecified threeNotes 0%nat "s" [limitFilter 2], Returned tt).
Proof. repeat split. Qed.

(** What a REQ sends when no limit is negative: the stored events that
    match the filter list, newest first, capped at the largest limit
    across the filters -- the code reading a limit that is absent or 0 as
    no limit -- and then exactly one EOSE for the subscription, after all
    of them; the order is that of a stable sort of the stored events by
    descending [created_at]. *)
Theorem backlog_replay_then_eose throws r ws subId filters :
  throws ws = false ->
  limitsNonNegative filters ->
  snd (handleMessage throws r ws (ClientREQ subId filters)) =
  ((map (fun e => (ws, EVENT subId e))
        (capTo (largestLimit filters) (backlog r filters))
    ++ [(ws, EOSE subId)])%list, Returned tt) /\
  events (fst (handleMessage throws r ws (ClientREQ subId filters))) =
  events r /\
  Permutation (sortNewestFirst (EvMap.values (events r)))
              (EvMap.values (events r)) /\
  StronglySorted newerOrSame (sortNewestFirst (EvMap.values (events r))).
Proof.
  intros A NN. split; [|split; [reflexivity|split]].
  - unfold handleMessage. cbn [snd]. rewrite replayLimit_largest.
    rewrite (replay_spec throws ws subId filters A).
    + unfold backlog, send. rewrite A. reflexivity.
    + intros n E. destruct (largestLimit_positive filters n NN E) as [P| ->].
      * now left.
      * right. now induction (sortNewestFirst _).
  - apply sortNewestFirst_perm.
  - apply sortNewestFirst_sorted.
Qed.

Lemma backlog_replay_then_eose_witness :
  snd (handleMessage allOpen threeNotes 0%nat (ClientREQ "s" [limitFilter 2])) =
  ([(0%nat, EVENT "s" (note "b" 7 []));
    (0%nat, EVENT "s" (note "a" 5 []));
    (0%nat, EOSE "s")], Returned tt).
Proof.
  apply (backlog_replay_then_eose allOpen threeNotes 0%nat "s" [limitFilter 2]
           eq_refl).
  repeat constructor. intros n E. inversion E. lia.
Defined.

(** * Further properties of the relay *)

(** ** Maps *)

Section MapFacts.

Context {K V : Type} (eqb : K -> K -> bool).
Hypothesis eqb_eq : forall a b, eqb a b = true <-> a = b.

Lemma JsMap_has_In k (m : list (K * V)) :
  JsMap.has eqb k m = true <-> In k (map fst m).
Proof.
  unfold JsMap.has. rewrite existsb_exists, in_map_iff.
  split; intros (p & A & B).
  - apply eqb_eq in B. now exists p.
  - exists p. split; [assumption | now apply eqb_eq].
Qed.

Lemma JsMap_set_keys k v (m : list (K * V)) :
  map fst (JsMap.set eqb k v m) =
  if JsMap.has eqb k m then map fst m else (map fst m ++ [k])%list.
Proof.
  unfold JsMap.set. destruct (JsMap.has eqb k m).
  - rewrite map_map. apply map_ext. intros p.
    destruct (eqb (fst p) k) eqn:E; trivial. simpl. symmetry. now apply eqb_eq.
  - now rewrite map_app.
Qed.

Lemma JsMap_set_NoDup k v (m : list (K * V)) :
  NoDup (map fst m) -> NoDup (map fst (JsMap.set eqb k v m)).
Proof.
  intros ND. rewrite JsMap_set_keys. destruct (JsMap.has eqb k m) eqn:H; trivial.
  apply NoDup_app; trivial.
  - constructor; [intros []|constructor].
  - intros a A [<-|[]]. apply JsMap_has_In in A. congruence.
Qed.

Lemma JsMap_delete_NoDup k (m : list (K * V)) :
  NoDup (map fst m) -> NoDup (map fst (JsMap.delete eqb k m)).
Proof.
  unfold JsMap.delete. induction m as [|p m IH]; simpl; trivial.
  intros ND. inversion ND as [|? ? N ND']; subst.
  destruct (negb (eqb (fst p) k)); simpl; auto. constructor; auto.
  intros Hin. apply N. apply in_map_iff in Hin as (q & E & Hq).
  apply filter_In in Hq as [Hq _]. rewrite <- E. now apply in_map.
Qed.

Lemma JsMap_set_In k v (m : list (K * V)) p :
  In p (JsMap.set eqb k v m) -> p = (k, v) \/ In p m.
Proof.
  unfold JsMap.set. destruct (JsMap.has eqb k m).
  - intros H. apply in_map_iff in H as (q & E & Hq).
    destruct (eqb (fst q) k); subst; auto.
  - intros H. apply in_app_iff in H as [H|[<-|[]]]; auto.
Qed.

Lemma JsMap_get_In k v (m : list (K * V)) :
  JsMap.get eqb k m = Some v -> In (k, v) m.
Proof.
  unfold JsMap.get. destruct (find _ m) as [[k' v']|] eqn:F; [|discriminate].
  simpl. intros E. inversion E; subst. apply find_some in F as [Hin Q].
  apply eqb_eq in Q. simpl in Q. now subst.
Qed.

Lemma JsMap_get_set_same k v (m : list (K * V)) :
  JsMap.get eqb k (JsMap.set eqb k v m) = Some v.
Proof.
  assert (R : eqb k k = true) by now apply eqb_eq.
  unfold JsMap.get, JsMap.set, JsMap.has.
  destruct (existsb _ m) eqn:H.
  - induction m as [|p m IH]; simpl in *; [discriminate|].
    destruct (eqb (fst p) k) eqn:E; simpl.
    + now rewrite R.
    + rewrite E. now apply IH.
  - induction m as [|p m IH]; simpl in *.
    + now rewrite R.
    + apply orb_false_iff in H as [E H]. rewrite E. now apply IH.
Qed.

Lemma JsMap_get_set_other k k' v (m : list (K * V)) :
  k' <> k -> JsMap.get eqb k' (JsMap.set eqb k v m) = JsMap.get eqb k' m.
Proof.
  intros N.
  assert (F : eqb k k' = false).
  { destruct (eqb k k') eqn:E; trivial. apply eqb_eq in E. congruence. }
  unfold JsMap.get, JsMap.set. destruct (JsMap.has eqb k m).
  - induction m as [|p m IH]; simpl; trivial.
    destruct (eqb (fst p) k) eqn:E; simpl.
    + rewrite F. apply eqb_eq in E. rewrite E, F. apply IH.
    + destruct (eqb (fst p) k'); trivial.
  - induction m as [|p m IH]; simpl.
    + now rewrite F.
    + destruct (eqb (fst p) k'); trivial.
Qed.

Lemma JsMap_get_delete_same k (m : list (K * V)) :
  JsMap.get eqb k (JsMap.delete eqb k m) = None.
Proof.
  unfold JsMap.get, JsMap.delete. induction m as [|p m IH]; simpl; trivial.
  destruct (eqb (fst p) k) eqn:E; simpl; trivial. now rewrite E.
Qed.

Lemma JsMap_get_delete_other k k' (m : list (K * V)) :
  k' <> k -> JsMap.get eqb k' (JsMap.delete eqb k m) = JsMap.get eqb k' m.
Proof.
  intros N. unfold JsMap.get, JsMap.delete.
  induction m as [|p m IH]; simpl; trivial.
  destruct (eqb (fst p) k) eqn:E; simpl.
  - apply eqb_eq in E.
    destruct (eqb (fst p) k') eqn:E'; trivial.
    apply eqb_eq in E'. congruence.
  - destruct (eqb (fst p) k'); trivial.
Qed.

Lemma JsMap_get_None k (m : list (K * V)) :
  JsMap.get eqb k m = None <-> JsMap.has eqb k m = false.
Proof.
  unfold JsMap.get, JsMap.has. induction m as [|p m IH]; simpl.
  - tauto.
  - destruct (eqb (fst p) k); simpl; [split; discriminate | assumption].
Qed.

End MapFacts.

(** ** Tables stay well formed *)

Lemma wfSubs_set ws table (subs : SubMap) :
  wfSubs subs -> NoDup (map fst table) ->
  wfSubs (JsMap.set Nat.eqb ws table subs).
Proof.
  intros [ND F] T. split.
  - now apply (JsMap_set_NoDup Nat.eqb Nat.eqb_eq).
  - apply Forall_forall. intros p Hp.
    apply JsMap_set_In in Hp as [->|Hp]; trivial.
    now apply (proj1 (Forall_forall _ _) F).
Qed.

Lemma wfSubs_get ws table (subs : SubMap) :
  wfSubs subs -> JsMap.get Nat.eqb ws subs = Some table ->
  NoDup (map fst table).
Proof.
  intros [_ F] G. apply (JsMap_get_In Nat.eqb Nat.eqb_eq) in G.
  now apply (proj1 (Forall_forall _ _) F (ws, table)).
Qed.

Lemma wfSubs_delete ws (subs : SubMap) :
  wfSubs subs -> wfSubs (JsMap.delete Nat.eqb ws subs).
Proof.
  intros [ND F]. split.
  - now apply JsMap_delete_NoDup.
  - apply Forall_forall. intros p Hp. apply filter_In in Hp as [Hp _].
    now apply (proj1 (Forall_forall _ _) F).
Qed.

Lemma call_wf throws r c : wfRelay r -> wfRelay (call throws r c).
Proof.
  intros [WE WS]. destruct c as [ws data|event| |ws]; cbn [call].
  - destruct data as [| |[e|]|subId filters|subId|type];
      unfold handleMessage; cbn [fst]; try (split; assumption).
    + destruct (invalidEvent (Some e)); [split; assumption|].
      pose proof (storeEvent_wf e (events r) WE) as W.
      destruct (storeEvent e (events r)). split; assumption.
    + split; [assumption|]. simpl.
      set (subs1 := if JsMap.has Nat.eqb ws (subscriptions r)
                    then subscriptions r
                    else JsMap.set Nat.eqb ws [] (subscriptions r)).
      assert (W1 : wfSubs subs1).
      { subst subs1. destruct (JsMap.has Nat.eqb ws (subscriptions r));
          trivial. apply wfSubs_set; trivial. constructor. }
      apply wfSubs_set; trivial.
      apply (JsMap_set_NoDup String.eqb String.eqb_eq).
      destruct (JsMap.get Nat.eqb ws subs1) as [t|] eqn:G; [|constructor].
      now apply (wfSubs_get ws t subs1).
    + split; [assumption|]. simpl.
      destruct (JsMap.get Nat.eqb ws (subscriptions r)) as [t|] eqn:G; trivial.
      apply wfSubs_set; trivial. apply JsMap_delete_NoDup.
      now apply (wfSubs_get ws t (subscriptions r)).
  - unfold inject. pose proof (storeEvent_wf event (events r) WE) as W.
    destruct (storeEvent event (events r)). split; assumption.
  - split; [|assumption]. split; constructor.
  - split; [assumption|]. now apply wfSubs_delete.
Qed.

Lemma run_wf_from throws calls r :
  wfRelay r -> wfRelay (fold_left (call throws) calls r).
Proof.
  revert r. induction calls as [|c calls IH]; intros r W; simpl; trivial.
  apply IH. now apply call_wf.
Qed.

Lemma createMockRelay_wf : wfRelay createMockRelay.
Proof. repeat split; constructor. Qed.

Lemma run_wf throws calls : wfRelay (run throws calls).
Proof. apply run_wf_from, createMockRelay_wf. Qed.

(** X1: whatever calls a fresh relay receives -- messages on any socket,
    injections, resets, closed connections, with [send] throwing wherever
    it may -- its event table never holds two entries under one id, files
    every event under its own id, and its subscription table never holds
    a connection or a subscription id of a connection twice. *)
Theorem tables_stay_well_formed throws calls : wfRelay (run throws calls).
Proof. apply run_wf_from, createMockRelay_wf. Qed.

(** X2: in every relay reached from a fresh one, a query -- filtered or
    not -- never returns two events with the same id. *)
Theorem query_ids_are_distinct throws calls filter :
  NoDup (map id (getEvents (run throws calls) filter)).
Proof.
  destruct (run_wf_from throws calls createMockRelay createMockRelay_wf)
    as [[ND F] _].
  fold (run throws calls) in ND, F.
  assert (E : map id (EvMap.values (events (run throws calls))) =
              EvMap.keys (events (run throws calls))).
  { unfold EvMap.values, EvMap.keys. rewrite map_map.
    apply map_ext_in. intros p Hp. symmetry.
    now apply (proj1 (Forall_forall _ _) F). }
  unfold getEvents. destruct filter as [f|]; [|now rewrite E].
  rewrite <- E in ND. clear E F.
  induction (EvMap.values (events (run throws calls))) as [|e l IH];
    simpl in *; [constructor|].
  inversion ND as [|? ? N ND']; subst.
  destruct (matchesFilter e f); simpl; auto. constructor; auto.
  intros Hin. apply N. apply in_map_iff in Hin as (x & Ex & Hx).
  apply filter_In in Hx as [Hx _]. rewrite <- Ex. now apply in_map.
Qed.

(** ** The store under inject *)

Lemma removeOlder_incl rKey event (m : EvMap.t) :
  incl (removeOlder rKey event m) m.
Proof.
  unfold removeOlder. rewrite (fold_delete_filter (superseded rKey event)).
  apply incl_filter.
Qed.

Lemma inject_events throws r event :
  events (fst (inject throws r event)) = fst (storeEvent event (events r)).
Proof. unfold inject. now destruct (storeEvent event (events r)). Qed.

Lemma inject_result throws r event :
  snd (snd (inject throws r event)) =
  Returned (snd (storeEvent event (events r))).
Proof. now rewrite inject_isolates_failures. Qed.

Lemma storeEvent_shape event (m : EvMap.t) :
  exists m1,
    incl m1 m /\
    (EvMap.has (id event) m1 = true /\ storeEvent event m = (m1, false) \/
     EvMap.has (id event) m1 = false /\
     storeEvent event m = ((m1 ++ [(id event, event)])%list, true)).
Proof.
  unfold storeEvent.
  set (m1 := match replaceableKey event with
             | Some r => if Js.truthy_str (replaceableKey event)
                         then removeOlder r event m else m
             | None => m
             end).
  exists m1. split.
  - subst m1. destruct (replaceableKey event) as [k|]; [|apply incl_refl].
    destruct (Js.truthy_str (Some k));
      [apply removeOlder_incl | apply incl_refl].
  - destruct (EvMap.has (id event) m1) eqn:H; [left|right]; split; trivial.
    unfold EvMap.set, JsMap.set. unfold EvMap.has in H. now rewrite H.
Qed.

(** X3: after [inject], a query finds an event with the id of the injected
    one; when [inject] returns [true] the injected event itself is the
    last event of the unfiltered query, behind events that were stored
    before. *)
Theorem injected_event_is_found throws r event :
  wfRelay r ->
  (exists x, In x (getEvents (fst (inject throws r event)) None) /\
             id x = id event) /\
  (snd (snd (inject throws r event)) = Returned true ->
   exists older,
     getEvents (fst (inject throws r event)) None = (older ++ [event])%list /\
     incl older (getEvents r None)).
Proof.
  intros [[_ F] _]. unfold getEvents. rewrite inject_events, inject_result.
  destruct (storeEvent_shape event (events r)) as (m1 & I & [[H E]|[H E]]);
    rewrite E; cbn [fst snd]; split.
  - apply has_In in H. unfold EvMap.keys in H.
    apply in_map_iff in H as (p & K & Hp). exists (snd p). split.
    + now apply in_map.
    + rewrite <- K. symmetry.
      apply (proj1 (Forall_forall _ _) F p). now apply I.
  - discriminate.
  - exists event. split; trivial. unfold EvMap.values. rewrite map_app.
    apply in_or_app. right. now left.
  - intros _. exists (map snd m1). split.
    + unfold EvMap.values. now rewrite map_app.
    + intros x Hx. apply in_map_iff in Hx as (p & <- & Hp).
      apply in_map. now apply I.
Qed.

Lemma injected_event_is_found_witness :
  exists x, In x (getEvents (injected createMockRelay taskOpen) None) /\
            id x = id taskOpen.
Proof.
  apply (injected_event_is_found allOpen createMockRelay taskOpen).
  repeat split; constructor.
Defined.

(** A stored event that is gone after an injection was superseded. *)
Lemma evicted_is_superseded throws r event x :
  NoDup (EvMap.keys (events r)) ->
  In x (getEvents r None) ->
  ~ In x (getEvents (fst (inject throws r event)) None) ->
  exists k, replaceableKey event = Some k /\ superseded k event x = true.
Proof.
  intros ND Hx Gone. unfold getEvents in *. rewrite inject_events in Gone.
  unfold EvMap.values in Hx. apply in_map_iff in Hx as (p & <- & Hp).
  destruct (replaceableKey event) as [k|] eqn:K.
  - exists k. split; trivial.
    rewrite (storeEvent_replaceable event k) in Gone by assumption.
    cbv zeta in Gone.
    destruct (superseded k event (snd p)) eqn:S; trivial.
    exfalso. apply Gone.
    assert (In p (filter (fun q => negb (superseded k event (snd q)))
                         (events r))).
    { apply filter_In. split; trivial. now rewrite S. }
    destruct (EvMap.has (id event) _); cbn [fst]; unfold EvMap.values.
    + now apply in_map.
    + rewrite map_app. apply in_or_app. left. now apply in_map.
  - exfalso. apply Gone. unfold storeEvent. rewrite K.
    destruct (EvMap.has (id event) (events r)) eqn:H; cbn [fst].
    + now apply in_map.
    + unfold EvMap.set, JsMap.set. unfold EvMap.has in H. rewrite H.
      unfold EvMap.values. rewrite map_app. apply in_or_app. left.
      now apply in_map.
Qed.

(** X4: [inject] removes a stored event only if the injected event is
    replaceable, shares its replaceable key and is not older; in
    particular events that are not replaceable are never removed. *)
Theorem eviction_only_same_key_not_newer throws r event x :
  wfRelay r ->
  In x (getEvents r None) ->
  ~ In x (getEvents (fst (inject throws r event)) None) ->
  replaceableKey event <> None /\
  replaceableKey x = replaceableKey event /\
  created_at x <= created_at event.
Proof.
  intros [[ND _] _] Hx Gone.
  destruct (evicted_is_superseded throws r event x ND Hx Gone) as (k & K & S).
  unfold superseded in S. apply andb_true_iff in S as [Q L].
  apply Js_eqb_opt_eq in Q. apply Z.leb_le in L.
  rewrite K. repeat split; trivial. discriminate.
Qed.

Lemma eviction_only_same_key_not_newer_witness :
  replaceableKey taskClaimed <> None /\
  replaceableKey taskOpen = replaceableKey taskClaimed /\
  created_at taskOpen <= created_at taskClaimed.
Proof.
  apply (eviction_only_same_key_not_newer allOpen
           (injected createMockRelay taskOpen) taskClaimed taskOpen).
  - repeat split; repeat constructor; simpl; intuition discriminate.
  - simpl. now left.
  - simpl. intros [H|[]]. discriminate.
Defined.

(** X5: when a replaceable event with a fresh id is injected and no stored
    event of its replaceable key is newer (ties included), [inject]
    returns [true] and the injected event is afterwards the only stored
    event of that key. *)
Theorem newest_version_replaces_all throws r event rKey :
  wfRelay r ->
  replaceableKey event = Some rKey ->
  EvMap.has (id event) (events r) = false ->
  (forall x, In x (getEvents r None) -> replaceableKey x = Some rKey ->
             created_at x <= created_at event) ->
  snd (snd (inject throws r event)) = Returned true /\
  filter (fun x => Js.eqb_opt (replaceableKey x) (Some rKey))
         (getEvents (fst (inject throws r event)) None) = [event].
Proof.
  intros [[ND _] _] K H Old. unfold getEvents in *.
  rewrite inject_events, inject_result.
  rewrite (storeEvent_replaceable event rKey) by assumption. cbv zeta.
  set (m1 := filter (fun p => negb (superseded rKey event (snd p))) (events r)).
  assert (H1 : EvMap.has (id event) m1 = false).
  { destruct (EvMap.has (id event) m1) eqn:X; trivial.
    apply has_In in X. unfold EvMap.keys in X.
    apply in_map_iff in X as (p & E & Hp). apply filter_In in Hp as [Hp _].
    assert (EvMap.has (id event) (events r) = true); [|congruence].
    apply has_In. rewrite <- E. now apply in_map. }
  rewrite H1. cbn [fst snd]. split; trivial.
  unfold EvMap.values. rewrite map_app, filter_app. simpl.
  rewrite K, Js_eqb_opt_refl.
  assert (E : filter (fun x => Js.eqb_opt (replaceableKey x) (Some rKey))
                     (map snd m1) = []).
  { destruct (filter _ (map snd m1)) as [|x l] eqn:Fl; trivial. exfalso.
    assert (Hx : In x (filter (fun x => Js.eqb_opt (replaceableKey x) (Some rKey))
                              (map snd m1))) by (rewrite Fl; now left).
    apply filter_In in Hx as [Hx Q]. apply Js_eqb_opt_eq in Q.
    apply in_map_iff in Hx as (p & <- & Hp). subst m1.
    apply filter_In in Hp as [Hp S]. unfold superseded in S.
    rewrite Q, Js_eqb_opt_refl in S. simpl in S.
    apply negb_true_iff, Z.leb_gt in S.
    assert (created_at (snd p) <= created_at event); [|lia].
    apply Old; trivial. unfold EvMap.values. now apply in_map. }
  now rewrite E.
Qed.

Lemma newest_version_replaces_all_witness :
  filter (fun x => Js.eqb_opt (replaceableKey x) (Some "30950:alice:task-1"))
         (getEvents (injected (injected createMockRelay taskOpen) taskClaimed)
                    None) = [taskClaimed].
Proof.
  apply (newest_version_replaces_all allOpen
           (injected createMockRelay taskOpen) taskClaimed
           "30950:alice:task-1").
  - repeat split; repeat constructor; simpl; intuition discriminate.
  - reflexivity.
  - reflexivity.
  - simpl. intros x [<-|[]] _. simpl. lia.
Defined.

(** X6: injecting an event that is not replaceable and whose id is stored
    changes nothing: the relay is the same, nothing is sent and the
    result is [false]. *)
Theorem regular_duplicate_inject_is_noop throws r event :
  replaceableKey event = None ->
  EvMap.has (id event) (events r) = true ->
  inject throws r event = (r, ([], Returned false)).
Proof.
  intros K H. unfold inject.
  rewrite (storeEvent_regular_duplicate event (events r) K H).
  now destruct r.
Qed.

Lemma regular_duplicate_inject_is_noop_witness :
  inject allOpen (injected createMockRelay (note "a" 1000 []))
         (note "a" 1000 []) =
  (injected createMockRelay (note "a" 1000 []), ([], Returned false)).
Proof.
  apply (regular_duplicate_inject_is_noop allOpen
           (injected createMockRelay (note "a" 1000 [])) (note "a" 1000 []));
    reflexivity.
Defined.

(** ** Subscriptions and fan-out *)

Lemma deliveries_tables event subs :
  deliveries event subs =
  flat_map (fun p => tableDeliveries event (fst p) (snd p)) subs.
Proof.
  unfold deliveries. induction subs as [|[c t] subs IH]; simpl; trivial.
  now rewrite IH.
Qed.

Lemma filter_flat_map {A B} (g : B -> bool) (F : A -> list B) (l : list A) :
  filter g (flat_map F l) = flat_map (fun x => filter g (F x)) l.
Proof.
  induction l as [|x l IH]; simpl; trivial. now rewrite filter_app, IH.
Qed.

Lemma tableDeliveries_receiver event c table m :
  In m (tableDeliveries event c table) -> fst m = c.
Proof.
  unfold tableDeliveries. intros H. apply in_flat_map in H as ([s fs] & _ & H).
  destruct (matchesFilters event fs); [|contradiction].
  destruct H as [<-|[]]. reflexivity.
Qed.

Lemma filter_nil_iff {A} (g : A -> bool) (l : list A) :
  (forall x, In x l -> g x = false) -> filter g l = [].
Proof.
  intros H. induction l as [|x l IH]; simpl; trivial.
  rewrite (H x) by now left. apply IH. intros y Hy. apply H. now right.
Qed.

Lemma filter_all {A} (g : A -> bool) (l : list A) :
  (forall x, In x l -> g x = true) -> filter g l = l.
Proof.
  intros H. induction l as [|x l IH]; simpl; trivial.
  rewrite (H x) by now left. f_equal. apply IH. intros y Hy. apply H. now right.
Qed.

(** Deliveries of another connection are none of [(ws, subId)]. *)
Lemma tableDeliveries_other_conn event c table ws subId :
  c <> ws -> filter (isDeliveryTo ws subId) (tableDeliveries event c table) = [].
Proof.
  intros N. apply filter_nil_iff. intros m Hm.
  apply tableDeliveries_receiver in Hm. unfold isDeliveryTo.
  rewrite Hm. now rewrite (proj2 (Nat.eqb_neq c ws) N).
Qed.

Lemma tableDeliveries_without event ws subId table :
  ~ In subId (map fst table) ->
  filter (isDeliveryTo ws subId) (tableDeliveries event ws table) = [].
Proof.
  intros N. apply filter_nil_iff. intros m Hm. unfold tableDeliveries in Hm.
  apply in_flat_map in Hm as ([s fs] & Hs & H).
  destruct (matchesFilters event fs); [|contradiction].
  destruct H as [<-|[]]. unfold isDeliveryTo. simpl.
  rewrite Nat.eqb_refl. simpl. apply String.eqb_neq. intros ->.
  apply N. now apply (in_map fst _ (subId, fs)).
Qed.

Lemma deliveries_without event ws subId subs :
  ~ In ws (map fst subs) ->
  filter (isDeliveryTo ws subId) (deliveries event subs) = [].
Proof.
  intros N. rewrite deliveries_tables, filter_flat_map.
  induction subs as [|[c t] subs IH]; simpl; trivial.
  rewrite tableDeliveries_other_conn, IH; trivial.
  - intros H. apply N. now right.
  - intros ->. apply N. now left.
Qed.

Lemma NoDup_keys_split {K V} (m : list (K * V)) k v :
  NoDup (map fst m) -> In (k, v) m ->
  exists pre post,
    m = (pre ++ (k, v) :: post)%list /\
    ~ In k (map fst pre) /\ ~ In k (map fst post).
Proof.
  intros ND Hin. apply in_split in Hin as (pre & post & ->).
  exists pre, post. split; trivial.
  rewrite map_app in ND. simpl in ND.
  apply NoDup_remove_2 in ND. split; intros H; apply ND, in_or_app; auto.
Qed.

Lemma NoDup_keys_unique {K V} (m : list (K * V)) k v1 v2 :
  NoDup (map fst m) -> In (k, v1) m -> In (k, v2) m -> v1 = v2.
Proof.
  intros ND H1 H2.
  destruct (NoDup_keys_split m k v1 ND H1) as (pre & post & -> & A & B).
  apply in_app_iff in H2 as [H2|[H2|H2]].
  - elim A. now apply (in_map fst _ (k, v2)).
  - congruence.
  - elim B. now apply (in_map fst _ (k, v2)).
Qed.

(** The subscription table after a REQ. *)
Lemma req_subscriptions throws r ws subId filters :
  wfSubs (subscriptions r) ->
  let subs' :=
    subscriptions (fst (handleMessage throws r ws (ClientREQ subId filters))) in
  wfSubs subs' /\
  exists table,
    In (ws, table) subs' /\ In (subId, filters) table /\
    NoDup (map fst table).
Proof.
  intros W subs'.
  assert (W' : wfSubs subs').
  { pose proof (call_wf throws (mkRelay [] (subscriptions r))
                        (CallMessage ws (ClientREQ subId filters))) as C.
    destruct C as [_ C]; [split; [split; constructor| exact W]|].
    exact C. }
  split; trivial.
  subst subs'. unfold handleMessage in *. cbn [fst subscriptions] in *.
  set (subs1 := if JsMap.has Nat.eqb ws (subscriptions r)
                then subscriptions r
                else JsMap.set Nat.eqb ws [] (subscriptions r)) in *.
  set (table := match JsMap.get Nat.eqb ws subs1 with
                | Some t => t
                | None => []
                end) in *.
  exists (JsMap.set String.eqb subId filters table). repeat split.
  - apply (JsMap_get_In Nat.eqb Nat.eqb_eq).
    apply (JsMap_get_set_same Nat.eqb Nat.eqb_eq).
  - apply (JsMap_get_In String.eqb String.eqb_eq).
    apply (JsMap_get_set_same String.eqb String.eqb_eq).
  - destruct W' as [_ F].
    apply (proj1 (Forall_forall _ _) F
             (ws, JsMap.set String.eqb subId filters table)).
    apply (JsMap_get_In Nat.eqb Nat.eqb_eq).
    apply (JsMap_get_set_same Nat.eqb Nat.eqb_eq).
Qed.

Lemma req_deliveries throws r ws subId filters event :
  wfSubs (subscriptions r) ->
  filter (isDeliveryTo ws subId)
    (deliveries event
       (subscriptions
          (fst (handleMessage throws r ws (ClientREQ subId filters))))) =
  if matchesFilters event filters then [(ws, EVENT subId event)] else [].
Proof.
  intros W.
  destruct (req_subscriptions throws r ws subId filters W)
    as ([ND _] & table & Ht & Hf & NDt).
  destruct (NoDup_keys_split _ ws table ND Ht) as (pre & post & -> & A & B).
  destruct (NoDup_keys_split _ subId filters NDt Hf)
    as (tpre & tpost & -> & C & D).
  rewrite deliveries_tables, flat_map_app, filter_app. simpl.
  rewrite filter_app, <- !deliveries_tables.
  rewrite !deliveries_without by assumption.
  unfold tableDeliveries at 1. rewrite flat_map_app, filter_app. simpl.
  rewrite filter_app.
  fold (tableDeliveries event ws tpre). fold (tableDeliveries event ws tpost).
  rewrite !tableDeliveries_without by assumption.
  destruct (matchesFilters event filters); simpl; trivial.
  unfold isDeliveryTo. simpl. now rewrite Nat.eqb_refl, String.eqb_refl.
Qed.

Lemma isDeliveryTo_reaches throws ws subId (w : Wire) :
  throws ws = false ->
  filter (isDeliveryTo ws subId) (filter (reaches throws) w) =
  filter (isDeliveryTo ws subId) w.
Proof.
  intros A. induction w as [|m w IH]; simpl; trivial.
  destruct (reaches throws m) eqn:R; simpl; rewrite IH; trivial.
  destruct (isDeliveryTo ws subId m) eqn:D; trivial.
  unfold isDeliveryTo in D. apply andb_true_iff in D as [E _].
  apply Nat.eqb_eq in E. unfold reaches in R. rewrite E, A in R. discriminate.
Qed.

(** X7: after a REQ by a socket that does not throw, an injected event
    reaches that subscription exactly once when the event is new and the
    filters of this REQ match it, and not at all otherwise; that holds
    whatever filters the same subscription id carried before. *)
Theorem live_delivery_exactly_once throws r ws subId filters event :
  wfRelay r ->
  throws ws = false ->
  filter (isDeliveryTo ws subId)
    (fst (snd (inject throws
                 (fst (handleMessage throws r ws (ClientREQ subId filters)))
                 event))) =
  if snd (storeEvent event (events r)) && matchesFilters event filters
  then [(ws, EVENT subId event)]
  else [].
Proof.
  intros [_ W] A. rewrite inject_isolates_failures. cbn [fst].
  replace (events (fst (handleMessage throws r ws (ClientREQ subId filters))))
    with (events r) by reflexivity.
  destruct (snd (storeEvent event (events r))); cbn [andb filter]; trivial.
  rewrite (isDeliveryTo_reaches throws) by assumption.
  now apply req_deliveries.
Qed.

Lemma live_delivery_exactly_once_witness :
  filter (isDeliveryTo 1%nat "s")
    (fst (snd (inject allOpen
                 (fst (handleMessage allOpen twoSubscribers 1%nat
                                     (ClientREQ "s" [emptyFilter])))
                 (note "a" 1000 [])))) =
  [(1%nat, EVENT "s" (note "a" 1000 []))].
Proof.
  apply (live_delivery_exactly_once allOpen twoSubscribers 1%nat "s"
           [emptyFilter] (note "a" 1000 [])).
  - apply (run_wf allOpen
             [CallMessage 1%nat (ClientREQ "s1" [emptyFilter]);
              CallMessage 2%nat (ClientREQ "s2" [emptyFilter])]).
  - reflexivity.
Defined.

Lemma tableDeliveries_delete event ws subId table :
  tableDeliveries event ws (JsMap.delete String.eqb subId table) =
  filter (notDeliveryTo ws subId) (tableDeliveries event ws table).
Proof.
  unfold tableDeliveries, JsMap.delete.
  induction table as [|[s fs] table IH]; simpl; trivial.
  rewrite filter_app, <- IH.
  destruct (String.eqb s subId) eqn:E; simpl.
  - destruct (matchesFilters event fs); simpl; trivial.
    unfold notDeliveryTo, isDeliveryTo. simpl.
    now rewrite Nat.eqb_refl, E.
  - destruct (matchesFilters event fs); simpl; trivial.
    unfold notDeliveryTo, isDeliveryTo. simpl.
    now rewrite E, andb_false_r.
Qed.

Lemma tableDeliveries_notDeliveryTo event c table ws subId :
  c <> ws ->
  filter (notDeliveryTo ws subId) (tableDeliveries event c table) =
  tableDeliveries event c table.
Proof.
  intros N. apply filter_all. intros m Hm.
  apply tableDeliveries_receiver in Hm. unfold notDeliveryTo, isDeliveryTo.
  rewrite Hm. now rewrite (proj2 (Nat.eqb_neq c ws) N).
Qed.

(** X8: a CLOSE sends nothing and leaves the store alone; afterwards the
    fan-out of any event is the former one without the deliveries to the
    closed subscription, so every other subscription is served as before
    and a CLOSE of an unknown subscription changes no delivery. *)
Theorem close_stops_only_that_subscription throws r ws subId event :
  wfRelay r ->
  let r' := fst (handleMessage throws r ws (ClientCLOSE subId)) in
  snd (handleMessage throws r ws (ClientCLOSE subId)) = ([], Returned tt) /\
  events r' = events r /\
  deliveries event (subscriptions r') =
  filter (notDeliveryTo ws subId) (deliveries event (subscriptions r)).
Proof.
  intros [_ [ND F]] r'. subst r'. repeat split.
  unfold handleMessage. cbn [fst subscriptions].
  rewrite !deliveries_tables, filter_flat_map.
  destruct (JsMap.get Nat.eqb ws (subscriptions r)) as [t|] eqn:G.
  - pose proof (JsMap_get_In Nat.eqb Nat.eqb_eq _ _ _ G) as Hin.
    unfold JsMap.set.
    assert (H : JsMap.has Nat.eqb ws (subscriptions r) = true).
    { apply (JsMap_has_In Nat.eqb Nat.eqb_eq).
      now apply (in_map fst _ (ws, t)). }
    rewrite H, flat_map_concat_map, map_map, <- flat_map_concat_map.
    revert Hin ND. generalize (subscriptions r) as subs. clear.
    intros subs Hin ND.
    assert (U : forall p, In p subs -> fst p = ws -> snd p = t).
    { intros [c t'] Hp E. simpl in *. subst c.
      now apply (NoDup_keys_unique subs ws t' t ND). }
    clear Hin ND. induction subs as [|[c t'] subs IH]; simpl; trivial.
    rewrite IH by (intros q Hq; apply U; now right). f_equal.
    destruct (Nat.eqb c ws) eqn:E; simpl.
    + apply Nat.eqb_eq in E. subst c.
      assert (t' = t) by (apply (U (ws, t')); [now left | reflexivity]).
      subst t'. apply tableDeliveries_delete.
    + apply Nat.eqb_neq in E. symmetry.
      now apply tableDeliveries_notDeliveryTo.
  - apply (JsMap_get_None Nat.eqb) in G.
    assert (N : ~ In ws (map fst (subscriptions r))).
    { intros H. apply (JsMap_has_In Nat.eqb Nat.eqb_eq) in H. congruence. }
    clear -N. induction (subscriptions r) as [|p subs IH]; simpl; trivial.
    rewrite <- IH by (intros H; apply N; now right). f_equal. symmetry.
    apply tableDeliveries_notDeliveryTo. intros E. apply N. now left.
Qed.

Lemma close_stops_only_that_subscription_witness :
  deliveries (note "a" 1000 [])
    (subscriptions (fst (handleMessage allOpen twoSubscribers 1%nat
                                       (ClientCLOSE "s1")))) =
  [(2%nat, EVENT "s2" (note "a" 1000 []))].
Proof.
  apply (close_stops_only_that_subscription allOpen twoSubscribers 1%nat "s1"
           (note "a" 1000 [])).
  apply (run_wf allOpen
           [CallMessage 1%nat (ClientREQ "s1" [emptyFilter]);
            CallMessage 2%nat (ClientREQ "s2" [emptyFilter])]).
Defined.

(** X9: when a connection closes, the store is left alone and the fan-out
    of any event becomes the former one without the deliveries to that
    connection: all its subscriptions are gone and no other is touched. *)
Theorem closed_connection_loses_all_subscriptions r ws event :
  events (connectionClosed r ws) = events r /\
  deliveries event (subscriptions (connectionClosed r ws)) =
  filter (notTo ws) (deliveries event (subscriptions r)).
Proof.
  split; trivial. unfold connectionClosed. cbn [subscriptions].
  rewrite !deliveries_tables, filter_flat_map. unfold JsMap.delete.
  induction (subscriptions r) as [|[c t] subs IH]; simpl; trivial.
  destruct (Nat.eqb c ws) eqn:E; simpl; rewrite IH.
  - rewrite filter_nil_iff; trivial. intros m Hm.
    apply tableDeliveries_receiver in Hm. unfold notTo. now rewrite Hm, E.
  - rewrite filter_all; trivial. intros m Hm.
    apply tableDeliveries_receiver in Hm. unfold notTo. now rewrite Hm, E.
Qed.

(** X10: when no socket throws, an EVENT message with a valid event does
    what [inject] does -- same relay afterwards, same deliveries in the
    same order -- preceded by the acknowledgment to the sender. *)
Theorem transport_event_is_inject_after_ack throws r ws event :
  (forall c, throws c = false) ->
  invalidEvent (Some event) = false ->
  handleMessage throws r ws (ClientEVENT (Some event)) =
  (fst (inject throws r event),
   ((ws, OK (Js.interp (id event)) true "") ::
    fst (snd (inject throws r event)), Returned tt)).
Proof.
  intros A V. rewrite inject_isolates_failures. unfold handleMessage, inject.
  rewrite V. destruct (storeEvent event (events r)) as [m isNew].
  cbn [fst snd]. f_equal. unfold send. rewrite A. destruct isNew.
  - rewrite broadcast_spec. simpl. f_equal.
    + f_equal. rewrite filter_all.
      * induction (deliveries event (subscriptions r)) as [|x l IH];
          simpl; trivial.
        unfold reaches at 1. rewrite A. simpl. now rewrite IH.
      * intros x _. unfold reaches. now rewrite A.
    + rewrite (proj2 (forallb_forall _ _)); trivial.
      intros x _. unfold reaches. now rewrite A.
  - reflexivity.
Qed.

Lemma transport_event_is_inject_after_ack_witness :
  fst (snd (handleMessage allOpen twoSubscribers 0%nat
                          (ClientEVENT (Some (note "a" 1000 []))))) =
  [(0%nat, OK "a" true "");
   (1%nat, EVENT "s1" (note "a" 1000 []));
   (2%nat, EVENT "s2" (note "a" 1000 []))].
Proof.
  rewrite (transport_event_is_inject_after_ack allOpen twoSubscribers 0%nat
             (note "a" 1000 []) (fun _ => eq_refl) eq_refl).
  reflexivity.
Defined.

(** X11: a message that is refused -- invalid JSON, a malformed array, an
    unknown type, or an EVENT whose event has no id or no pubkey -- leaves
    the relay exactly as it was and is answered by one message to the
    sender alone, a NOTICE or an OK with [accepted = false]. *)
Theorem refused_message_changes_nothing throws r ws data :
  refused data = true ->
  fst (handleMessage throws r ws data) = r /\
  exists m, isRefusal m = true /\
            snd (handleMessage throws r ws data) = send throws ws m.
Proof.
  destruct data as [| |[e|]|subId filters|subId|type]; cbn [refused];
    intros R; try discriminate; unfold handleMessage; try rewrite R;
    (split; [reflexivity|]); eexists; (split; [|reflexivity]); reflexivity.
Qed.

Lemma refused_message_changes_nothing_witness :
  fst (handleMessage allOpen threeNotes 0%nat
                     (ClientEVENT (Some (mkEvent None (Some "alice") (Some 1)
                                                 1000 [] "" "")))) =
  threeNotes.
Proof.
  apply (refused_message_changes_nothing allOpen threeNotes 0%nat
           (ClientEVENT (Some (mkEvent None (Some "alice") (Some 1)
                                       1000 [] "" "")))).
  reflexivity.
Defined.

Lemma replay_on_throwing_socket throws ws subId filters limit sorted count :
  throws ws = true ->
  replay throws ws subId filters limit sorted count =
  if existsb (fun e => matchesFilters e filters) sorted
  then ([], Thrown) else ([], Returned tt).
Proof.
  intros T. revert count.
  induction sorted as [|e rest IH]; intros count; simpl; trivial.
  destruct (matchesFilters e filters); simpl; [|apply IH].
  unfold send. now rewrite T.
Qed.

(** X12: a REQ on a socket whose [send] throws ends in the exception with
    nothing sent, not even the EOSE, yet the subscription is registered:
    it is served by later fan-outs as soon as the socket sends again. *)
Theorem req_on_throwing_socket_still_registers
        throws r ws subId filters event :
  wfRelay r ->
  throws ws = true ->
  snd (handleMessage throws r ws (ClientREQ subId filters)) = ([], Thrown) /\
  filter (isDeliveryTo ws subId)
    (deliveries event
       (subscriptions
          (fst (handleMessage throws r ws (ClientREQ subId filters))))) =
  if matchesFilters event filters then [(ws, EVENT subId event)] else [].
Proof.
  intros [_ W] T. split; [|now apply req_deliveries].
  unfold handleMessage. cbn [snd]. rewrite replay_on_throwing_socket by trivial.
  destruct (existsb _ _); simpl; trivial. unfold send. now rewrite T.
Qed.

Lemma req_on_throwing_socket_still_registers_witness :
  snd (handleMessage firstThrows threeNotes 1%nat (ClientREQ "s" [emptyFilter]))
  = ([], Thrown).
Proof.
  apply (req_on_throwing_socket_still_registers firstThrows threeNotes 1%nat
           "s" [emptyFilter] (note "z" 1 [])).
  - apply (run_wf allOpen [CallInject (note "a" 5 []);
                           CallInject (note "b" 7 []);
                           CallInject (note "c" 5 [])]).
  - reflexivity.
Defined.

(** ** More on the filter predicate *)

(** X13: a constraint that is present with an empty array -- [ids: []],
    [authors: []], [kinds: []] or a tag entry ['#c': []] -- makes the
    filter match no event at all. *)
Theorem empty_array_matches_nothing event f :
  ids f = Some [] \/ authors f = Some [] \/ kinds f = Some [] \/
  (exists c, In (tagKey c, []) (tagEntries f)) ->
  matchesFilter event f = false.
Proof.
  intros H. unfold matchesFilter.
  destruct H as [E|[E|[E|[c Hc]]]].
  - now rewrite E.
  - rewrite E. simpl. now destruct (match ids f with Some _ => _ | None => _ end).
  - rewrite E. unfold Js.includes_num. simpl.
    destruct (match ids f with Some _ => _ | None => _ end); trivial.
    destruct (match authors f with Some _ => _ | None => _ end); trivial.
    now destruct (kind event).
  - repeat match goal with
           | |- (if ?c then false else _) = false => destruct c; trivial
           end.
    destruct (forallb _ _) eqn:A; trivial.
    rewrite forallb_forall in A. specialize (A _ Hc).
    unfold tagEntryOk in A. now rewrite isTagKey_tagKey in A.
Qed.

Lemma empty_array_matches_nothing_witness :
  matchesFilter (note "a" 1000 [["p"; "x"]]) (tagFilter [("#p", [])]) = false.
Proof.
  apply (empty_array_matches_nothing (note "a" 1000 [["p"; "x"]])
           (tagFilter [("#p", [])])).
  right. right. right. exists "p"%char. now left.
Defined.

Lemma includes_spec l x :
  Js.includes l x = true <-> exists i, x = Some i /\ In i l.
Proof.
  unfold Js.includes. rewrite existsb_exists. split.
  - intros (y & Hy & E). apply Js_eqb_opt_eq in E. now exists y.
  - intros (i & -> & Hi). exists i. split; trivial. apply Js_eqb_opt_refl.
Qed.

Lemma includes_num_spec l x :
  Js.includes_num l x = true <-> exists k, x = Some k /\ In k l.
Proof.
  unfold Js.includes_num. destruct x as [k|].
  - rewrite existsb_exists. split.
    + intros (y & Hy & E). apply Z.eqb_eq in E. subst. now exists y.
    + intros (i & E & Hi). inversion E; subst. exists i. split; trivial.
      apply Z.eqb_refl.
  - split; [discriminate | intros (k & E & _); discriminate].
Qed.

(** X14: the constraints [ids], [authors] and [kinds] are membership
    tests on the event's own [id], [pubkey] and [kind]: a filter stripped
    of its time bounds and tag entries matches exactly when each list
    that is present contains the event's value, so an event that lacks
    the field never matches; and every filter that matches passes the
    three tests. *)
Theorem membership_constraints event f :
  let member :=
    (forall l, ids f = Some l -> exists i, id event = Some i /\ In i l) /\
    (forall l, authors f = Some l ->
               exists a, pubkey event = Some a /\ In a l) /\
    (forall l, kinds f = Some l -> exists k, kind event = Some k /\ In k l) in
  (matchesFilter event (withTagEntries (withBounds f None None) []) = true <->
   member) /\
  (matchesFilter event f = true -> member).
Proof.
  intros member.
  assert (C : matchesFilter event (withTagEntries (withBounds f None None) [])
              = true <-> member).
  { subst member. unfold matchesFilter, withTagEntries, withBounds. simpl.
    destruct (ids f) as [li|], (authors f) as [la|], (kinds f) as [lk|];
      simpl;
      repeat match goal with
             | |- context [Js.includes ?l ?x] =>
                 let E := fresh "E" in
                 pose proof (includes_spec l x) as E;
                 destruct (Js.includes l x); simpl
             | |- context [Js.includes_num ?l ?x] =>
                 let E := fresh "E" in
                 pose proof (includes_num_spec l x) as E;
                 destruct (Js.includes_num l x); simpl
             end;
      split;
      try (intros _; repeat split; intros l Q; inversion Q; subst;
           match goal with H : true = true <-> _ |- _ => now apply H end);
      try discriminate;
      try (intros _; repeat split; intros l Q; discriminate);
      try reflexivity;
      intros (A & B & D);
      repeat match goal with
             | H : false = true <-> _ |- _ =>
                 first [ specialize (A _ eq_refl); apply H in A; discriminate
                       | specialize (B _ eq_refl); apply H in B; discriminate
                       | specialize (D _ eq_refl); apply H in D; discriminate
                       | clear H ]
             end. }
  split; trivial. intros M. apply C.
  rewrite matchesFilter_split in M. apply andb_true_iff in M as [M _].
  rewrite matchesFilter_bounds_split in M.
  apply andb_true_iff in M as [M _]. apply andb_true_iff in M as [M _].
  exact M.
Qed.

Lemma membership_constraints_witness :
  exists k, kind (note "a" 1000 []) = Some k /\ In k [1; 4].
Proof.
  destruct (proj2 (membership_constraints (note "a" 1000 [])
                     (mkFilter None None (Some [1; 4]) None None None []))
                  eq_refl) as (_ & _ & K).
  apply (K [1; 4] eq_refl).
Defined.

(** X15: among the stored events with one and the same [created_at], the
    backlog of a REQ keeps the order in which the store holds them. *)
Theorem backlog_keeps_store_order_on_ties r filters t :
  filter (fun e => created_at e =? t) (backlog r filters) =
  filter (fun e => created_at e =? t)
         (filter (fun e => matchesFilters e filters) (getEvents r None)).
Proof.
  unfold backlog, getEvents.
  assert (Comm : forall (g h : Event -> bool) l,
             filter g (filter h l) = filter h (filter g l)).
  { intros g h l. induction l as [|x l IH]; simpl; trivial.
    destruct (g x) eqn:G, (h x) eqn:Hh; simpl; rewrite ?G, ?Hh, IH; trivial. }
  rewrite Comm, sortNewestFirst_stable, Comm. reflexivity.
Qed.

(** ** Replaceable keys *)

Lemma noColon_uint d : noColon (NilEmpty.string_of_uint d) = true.
Proof. induction d; simpl; trivial. Qed.

Lemma noColon_show k : noColon (Js.show k) = true.
Proof.
  unfold Js.show, NilZero.string_of_int, NilZero.string_of_uint.
  destruct (Z.to_int k) as [d|d]; destruct d; simpl; trivial;
    apply noColon_uint.
Qed.

Lemma show_inj a b : Js.show a = Js.show b -> a = b.
Proof.
  unfold Js.show. intros E. apply DecimalZ.to_int_inj.
  assert (P : forall z, NilZero.int_of_string
                          (NilZero.string_of_int (Z.to_int z)) =
                        Some (Z.to_int z)).
  { intros z. apply NilZero.isi; destruct z; simpl; try discriminate;
      intros Q; inversion Q as [Q'];
      now apply DecimalPos.Unsigned.to_uint_nonnil in Q'. }
  pose proof (P a) as Pa. rewrite E, P in Pa. now inversion Pa.
Qed.

(** A string is cut at its first [':'] in one way only. *)
Lemma colon_split s1 t1 s2 t2 :
  noColon s1 = true -> noColon s2 = true ->
  s1 ++ ":" ++ t1 = s2 ++ ":" ++ t2 -> s1 = s2 /\ t1 = t2.
Proof.
  revert s2. induction s1 as [|c s1 IH]; intros [|d s2] N1 N2 E; simpl in *.
  - inversion E. now split.
  - inversion E; subst. apply andb_true_iff in N2 as [N2 _].
    rewrite Ascii.eqb_refl in N2. discriminate.
  - inversion E; subst. apply andb_true_iff in N1 as [N1 _].
    rewrite Ascii.eqb_refl in N1. discriminate.
  - inversion E; subst. apply andb_true_iff in N1 as [_ N1].
    apply andb_true_iff in N2 as [_ N2].
    destruct (IH s2 N1 N2 H1) as [-> ->]. now split.
Qed.

Lemma replaceableKey_cases event :
  replaceableKey event =
  match kind event with
  | Some k =>
      if parameterized k
      then Some (Js.show k ++ ":" ++ Js.interp (pubkey event) ++ ":" ++
                 discriminator event)
      else if (k =? 0) || (k =? 3) || ((k >=? 10000) && (k <? 20000))
           then Some (Js.show k ++ ":" ++ Js.interp (pubkey event))
           else None
  | None => None
  end.
Proof. reflexivity. Qed.

(** X16: for authors whose pubkey holds no [':'], two events of which the
    first is replaceable have the same replaceable key exactly when they
    have the same kind, the same pubkey and -- for a kind from 30000 to
    39999 -- the same value of the first ['d'] tag (the empty string when
    there is none). *)
Theorem replaceable_key_identifies_slot e1 e2 p1 p2 :
  pubkey e1 = Some p1 -> pubkey e2 = Some p2 ->
  noColon p1 = true -> noColon p2 = true ->
  replaceableKey e1 <> None ->
  (replaceableKey e1 = replaceableKey e2 <->
   kind e1 = kind e2 /\ p1 = p2 /\
   (forall k, kind e1 = Some k -> parameterized k = true ->
              discriminator e1 = discriminator e2)).
Proof.
  intros P1 P2 N1 N2 R. rewrite !replaceableKey_cases in *.
  rewrite P1, P2 in *. simpl Js.interp in *.
  destruct (kind e1) as [k1|]; [|now elim R].
  split.
  - intros E. destruct (kind e2) as [k2|].
    + unfold parameterized in *.
      destruct ((k1 >=? 30000) && (k1 <? 40000)) eqn:A1;
        [|destruct ((k1 =? 0) || (k1 =? 3) || ((k1 >=? 10000) && (k1 <? 20000)))
            eqn:B1; [|now elim R]];
        (destruct ((k2 >=? 30000) && (k2 <? 40000)) eqn:A2;
         [|destruct ((k2 =? 0) || (k2 =? 3) ||
                     ((k2 >=? 10000) && (k2 <? 20000))) eqn:B2;
           [|discriminate]]);
        inversion E as [E'];
        apply colon_split in E' as [S T]; try apply noColon_show;
        apply show_inj in S; subst k2.
      * apply colon_split in T as [-> D]; trivial. repeat split; trivial.
      * congruence.
      * congruence.
      * subst. repeat split; trivial. intros k Q. inversion Q; subst.
        congruence.
    + destruct (parameterized k1); [discriminate|].
      destruct ((k1 =? 0) || (k1 =? 3) || ((k1 >=? 10000) && (k1 <? 20000)));
        [discriminate | now elim R].
  - intros (K & -> & D). rewrite <- K.
    destruct (parameterized k1) eqn:A; trivial.
    now rewrite (D k1 eq_refl A).
Qed.

Lemma replaceable_key_identifies_slot_witness :
  replaceableKey taskOpen = replaceableKey taskClaimed.
Proof.
  apply (replaceable_key_identifies_slot taskOpen taskClaimed "alice" "alice");
    try reflexivity; try discriminate.
  repeat split.
Defined.

(** X17: [inject] never removes an event of another author or of another
    kind: when pubkeys hold no [':'], a stored event that is gone after
    an injection has the pubkey and the kind of the injected event. *)
Theorem eviction_respects_author throws r event x px pe :
  wfRelay r ->
  pubkey x = Some px -> pubkey event = Some pe ->
  noColon px = true -> noColon pe = true ->
  In x (getEvents r None) ->
  ~ In x (getEvents (fst (inject throws r event)) None) ->
  px = pe /\ kind x = kind event.
Proof.
  intros [[ND _] _] Px Pe Nx Ne Hx Gone.
  assert (S : exists k, replaceableKey event = Some k /\
                        replaceableKey x = Some k).
  { destruct (evicted_is_superseded throws r event x ND Hx Gone)
      as (k & K & S).
    exists k. split; trivial. unfold superseded in S.
    apply andb_true_iff in S as [Q _]. now apply Js_eqb_opt_eq in Q. }
  destruct S as (k & Ke & Kx).
  rewrite !replaceableKey_cases in *. rewrite Px in Kx. rewrite Pe in Ke.
  simpl Js.interp in *.
  destruct (kind x) as [kx|]; [|discriminate].
  destruct (kind event) as [ke|]; [|discriminate].
  unfold parameterized in *.
  destruct ((kx >=? 30000) && (kx <? 40000)) eqn:A1;
    [|destruct ((kx =? 0) || (kx =? 3) || ((kx >=? 10000) && (kx <? 20000)))
        eqn:B1; [|discriminate]];
    (destruct ((ke >=? 30000) && (ke <? 40000)) eqn:A2;
     [|destruct ((ke =? 0) || (ke =? 3) ||
                 ((ke >=? 10000) && (ke <? 20000))) eqn:B2;
       [|discriminate]]);
    rewrite <- Ke in Kx; inversion Kx as [E'];
    apply colon_split in E' as [S T]; try apply noColon_show;
    apply show_inj in S; subst kx.
  - apply colon_split in T as [-> _]; trivial. now split.
  - congruence.
  - congruence.
  - now subst.
Qed.

Lemma eviction_respects_author_witness :
  "alice" = "alice" /\ kind taskOpen = kind taskClaimed.
Proof.
  apply (eviction_respects_author allOpen
           (injected createMockRelay taskOpen) taskClaimed taskOpen
           "alice" "alice"); try reflexivity.
  - apply (run_wf allOpen [CallInject taskOpen]).
  - simpl. now left.
  - simpl. intros [H|[]]. discriminate.
Defined.

(** ** status *)

Lemma statusSubscriptions_sum r :
  statusSubscriptions r =
  list_sum (map (fun m => List.length (snd m)) (subscriptions r)).
Proof.
  unfold statusSubscriptions.
  assert (G : forall (l : SubMap) a,
             fold_left (fun sum m => (sum + List.length (snd m))%nat) l a =
             (a + list_sum (map (fun m => List.length (snd m)) l))%nat).
  { induction l as [|p l IH]; intros a; simpl; [lia|]. rewrite IH. lia. }
  now rewrite G.
Qed.

Section MapSums.

Context {K V : Type} (eqb : K -> K -> bool).
Hypothesis eqb_eq : forall a b, eqb a b = true <-> a = b.
Variable size : V -> nat.

Lemma JsMap_set_sum k v (m : list (K * V)) :
  NoDup (map fst m) ->
  (list_sum (map (fun p => size (snd p)) (JsMap.set eqb k v m)) +
   match JsMap.get eqb k m with Some old => size old | None => 0 end =
   list_sum (map (fun p => size (snd p)) m) + size v)%nat.
Proof.
  intros ND. unfold JsMap.set. destruct (JsMap.has eqb k m) eqn:H.
  - unfold JsMap.get, JsMap.has in *.
    induction m as [|p m IH]; simpl in *; [discriminate|].
    inversion ND as [|? ? N ND']; subst.
    destruct (eqb (fst p) k) eqn:E; simpl in *.
    + apply eqb_eq in E.
      assert (R : map (fun q => if eqb (fst q) k then (k, v) else q) m = m).
      { rewrite <- (map_id m) at 2. apply map_ext_in. intros q Hq.
        destruct (eqb (fst q) k) eqn:Q; trivial. apply eqb_eq in Q.
        elim N. rewrite E, <- Q. now apply in_map. }
      rewrite R. lia.
    + specialize (IH ND' H). lia.
  - apply (JsMap_get_None eqb) in H. rewrite H, map_app, list_sum_app.
    simpl. lia.
Qed.

End MapSums.

Lemma table_set_length subId filters (table : list (string * list Filter)) :
  List.length (JsMap.set String.eqb subId filters table) =
  (List.length table +
   if JsMap.has String.eqb subId table then 0 else 1)%nat.
Proof.
  unfold JsMap.set. destruct (JsMap.has String.eqb subId table).
  - rewrite length_map. lia.
  - rewrite length_app. simpl. lia.
Qed.

Lemma table_delete_length subId (table : list (string * list Filter)) :
  NoDup (map fst table) ->
  (List.length (JsMap.delete String.eqb subId table) +
   if JsMap.has String.eqb subId table then 1 else 0)%nat =
  List.length table.
Proof.
  unfold JsMap.delete, JsMap.has.
  induction table as [|p t IH]; simpl; trivial. intros ND.
  inversion ND as [|? ? N ND']; subst. specialize (IH ND').
  destruct (String.eqb (fst p) subId) eqn:E; simpl.
  - apply String.eqb_eq in E.
    assert (X : existsb (fun q => String.eqb (fst q) subId) t = false).
    { destruct (existsb _ t) eqn:X; trivial.
      apply existsb_exists in X as (q & Hq & Q). apply String.eqb_eq in Q.
      elim N. rewrite E, <- Q. now apply in_map. }
    rewrite X in IH. lia.
  - lia.
Qed.

(** X18: [status().subscriptions] counts every pair of connection and
    subscription id once: a REQ raises it by one when the pair is new and
    leaves it unchanged when it re-registers a pair, a CLOSE lowers it by
    one when the pair exists and leaves it unchanged otherwise. *)
Theorem status_counts_each_subscription_once throws r ws subId filters :
  wfRelay r ->
  statusSubscriptions
    (fst (handleMessage throws r ws (ClientREQ subId filters))) =
  (statusSubscriptions r + if registered r ws subId then 0 else 1)%nat /\
  (statusSubscriptions (fst (handleMessage throws r ws (ClientCLOSE subId))) +
   if registered r ws subId then 1 else 0)%nat =
  statusSubscriptions r.
Proof.
  intros [_ [ND F]]. rewrite !statusSubscriptions_sum. unfold registered.
  unfold handleMessage. cbn [fst subscriptions]. split.
  - set (subs1 := if JsMap.has Nat.eqb ws (subscriptions r)
                  then subscriptions r
                  else JsMap.set Nat.eqb ws [] (subscriptions r)).
    assert (ND1 : NoDup (map fst subs1)).
    { subst subs1. destruct (JsMap.has Nat.eqb ws (subscriptions r)); trivial.
      now apply (JsMap_set_NoDup Nat.eqb Nat.eqb_eq). }
    assert (G1 : JsMap.get Nat.eqb ws subs1 =
                 Some match JsMap.get Nat.eqb ws (subscriptions r) with
                      | Some t => t
                      | None => []
                      end).
    { subst subs1. destruct (JsMap.has Nat.eqb ws (subscriptions r)) eqn:H.
      - destruct (JsMap.get Nat.eqb ws (subscriptions r)) eqn:G; trivial.
        apply (JsMap_get_None Nat.eqb) in G. congruence.
      - rewrite (JsMap_get_set_same Nat.eqb Nat.eqb_eq).
        apply (JsMap_get_None Nat.eqb) in H. now rewrite H. }
    assert (S1 : list_sum (map (fun m => List.length (snd m)) subs1) =
                 list_sum (map (fun m => List.length (snd m))
                               (subscriptions r))).
    { subst subs1. destruct (JsMap.has Nat.eqb ws (subscriptions r)) eqn:H;
        trivial.
      unfold JsMap.set. rewrite H, map_app, list_sum_app.
      apply Nat.add_0_r. }
    pose proof (JsMap_set_sum Nat.eqb Nat.eqb_eq (@List.length _) ws
                  (JsMap.set String.eqb subId filters
                     match JsMap.get Nat.eqb ws subs1 with
                     | Some t => t
                     | None => []
                     end) subs1 ND1) as E.
    rewrite G1 in E. rewrite G1. unfold SubMap, Conn in *.
    rewrite table_set_length, S1 in E.
    destruct (JsMap.get Nat.eqb ws (subscriptions r)) as [t|];
      [|simpl in *]; lia.
  - destruct (JsMap.get Nat.eqb ws (subscriptions r)) as [t|] eqn:G; [|lia].
    pose proof (JsMap_set_sum Nat.eqb Nat.eqb_eq (@List.length _) ws
                  (JsMap.delete String.eqb subId t) (subscriptions r) ND) as E.
    rewrite G in E.
    assert (NDt : NoDup (map fst t)).
    { apply (wfSubs_get ws t (subscriptions r)); [now split | assumption]. }
    pose proof (table_delete_length subId t NDt).
    unfold SubMap, Conn in *. lia.
Qed.

Lemma status_counts_each_subscription_once_witness :
  statusSubscriptions
    (fst (handleMessage allOpen twoSubscribers 1%nat
                        (ClientREQ "s1" [limitFilter 2]))) = 2%nat.
Proof.
  apply (status_counts_each_subscription_once allOpen twoSubscribers 1%nat
           "s1" [limitFilter 2]).
  apply (run_wf allOpen
           [CallMessage 1%nat (ClientREQ "s1" [emptyFilter]);
            CallMessage 2%nat (ClientREQ "s2" [emptyFilter])]).
Defined.

(** * Properties of the event factories *)

Lemma tagEntryOk_p event r :
  tagEntryOk event ("#p", [r]) = true <->
  exists tag, In tag (tags event) /\ nth_error tag 0 = Some "p" /\
              nth_error tag 1 = Some r.
Proof.
  rewrite (tagEntryOk_spec event "#p" [r] eq_refl). unfold hasTagIn. simpl.
  split.
  - intros (t & v & Ht & N & V & [<-|[]]). now exists t.
  - intros (t & Ht & N & V). exists t, r. repeat split; trivial. now left.
Qed.

Lemma matches_kindToFilter event k p :
  kind event = Some k ->
  (exists tag, In tag (tags event) /\ nth_error tag 0 = Some "p" /\
               nth_error tag 1 = Some p) ->
  matchesFilter event (kindToFilter k p) = true.
Proof.
  intros K T. apply tagEntryOk_p in T.
  unfold matchesFilter, kindToFilter. cbn -[tagEntryOk].
  rewrite K. cbn -[tagEntryOk]. now rewrite Z.eqb_refl, T.
Qed.

Section FactoryFacts.

Variable digest : string -> Z -> Z -> list (list string) -> string -> string.
Variables (rp rs ru : string) (now : Z).

(** X19: built without [kind] and [tags] among the options, a direct
    message is matched by the recipient's filter [{kinds: [4], '#p':
    [recipient]}], a DVM request by [{kinds: [5000 + n], '#p':
    [provider]}], a DVM result by [{kinds: [6000 + n], '#p':
    [requester]}], and a text note with a mention by [{kinds: [1],
    '#p': [mention]}]. *)
Theorem factory_events_reach_their_addressee
        (text who : string) (n : Z) (opts : EventOpts) (nopts : NoteOpts) :
  optKind opts = None -> optTags opts = None ->
  optKind (noteEvent nopts) = None -> optTags (noteEvent nopts) = None ->
  mention nopts = Some who -> who <> "" ->
  matchesFilter (dm digest rp rs now text who opts) (kindToFilter 4 who)
  = true /\
  matchesFilter (dvmRequest digest rp rs now n text who opts)
                (kindToFilter (5000 + n) who) = true /\
  matchesFilter (dvmResult digest rp rs now n text who opts)
                (kindToFilter (6000 + n) who) = true /\
  matchesFilter (textNote digest rp rs now text nopts) (kindToFilter 1 who)
  = true.
Proof.
  intros K T NK NT M W.
  assert (Tr : Js.truthy_str (Some who) = true).
  { simpl. apply negb_true_iff, String.eqb_neq. exact W. }
  repeat split; apply matches_kindToFilter;
    unfold dm, dvmRequest, dvmResult, textNote, createEvent, spread;
    cbn [kind tags optKind optTags orDefault];
    rewrite ?K, ?T, ?NK, ?NT, ?M, ?Tr; cbn [orDefault orEmpty Js.interp];
    trivial;
    try (exists ["p"; who]; repeat split; now left).
  exists ["p"; who]. repeat split; trivial.
  destruct (Js.truthy_str (reply nopts)); simpl; auto.
Qed.

(** X20: when the options hold [tags], the event carries exactly those
    tags and none of the factory's own: the ['p'] tag of a direct message
    or a DVM result, the mention and reply tags of a text note and the
    ['d'] tag of a marketplace task are dropped, so the addressee's ['#p']
    filter matches only if the given tags themselves name the addressee. *)
Theorem given_tags_replace_factory_tags
        (t : list (list string)) (text who title : string) (n budget : Z)
        (opts : EventOpts) (nopts : NoteOpts) (topts : TaskOpts) :
  optTags opts = Some t ->
  optTags (noteEvent nopts) = Some t ->
  optTags (taskEvent topts) = Some t ->
  tags (dm digest rp rs now text who opts) = t /\
  tags (dvmRequest digest rp rs now n text who opts) = t /\
  tags (dvmResult digest rp rs now n text who opts) = t /\
  tags (textNote digest rp rs now text nopts) = t /\
  tags (marketplaceTask digest rp rs ru now title budget topts) = t /\
  (matchesFilter (dvmResult digest rp rs now n text who opts)
                 (tagFilter [("#p", [who])]) = true <->
   exists tag, In tag t /\ nth_error tag 0 = Some "p" /\
               nth_error tag 1 = Some who).
Proof.
  intros T NT TT.
  assert (E : tags (dvmResult digest rp rs now n text who opts) = t).
  { unfold dvmResult, createEvent, spread. cbn [tags optTags orDefault].
    now rewrite T. }
  repeat split;
    try (unfold dm, dvmRequest, dvmResult, textNote, marketplaceTask,
           createEvent, spread; cbn [tags optTags orDefault];
         rewrite ?T, ?NT, ?TT; reflexivity).
  - intros M. rewrite <- E. apply tagEntryOk_p.
    unfold matchesFilter, tagFilter in M. cbn -[tagEntryOk] in M.
    now rewrite andb_true_r in M.
  - intros H. rewrite <- E in H. apply tagEntryOk_p in H.
    unfold matchesFilter, tagFilter. cbn -[tagEntryOk].
    now rewrite andb_true_r.
Qed.

Lemma marketplaceTask_key title budget topts author tid :
  optKind (taskEvent topts) = None ->
  optTags (taskEvent topts) = None ->
  optPubkey (taskEvent topts) = Some author ->
  taskId topts = Some tid -> tid <> "" ->
  replaceableKey (marketplaceTask digest rp rs ru now title budget topts) =
  Some ("30950:" ++ author ++ ":" ++ tid).
Proof.
  intros K T P I N. unfold marketplaceTask, createEvent, spread, orString.
  rewrite I. cbn [Js.truthy_str Js.interp].
  rewrite (proj2 (String.eqb_neq tid "") N). cbn [negb].
  unfold replaceableKey.
  cbn [kind tags pubkey optKind optTags optPubkey orDefault].
  rewrite K, T, P. reflexivity.
Qed.

End FactoryFacts.

Lemma factory_events_reach_their_addressee_witness :
  matchesFilter (dm sampleDigest "k" "s" 0 "hello" "bob"
                    (byAuthor "alice"))
                (kindToFilter 4 "bob") = true.
Proof.
  apply (factory_events_reach_their_addressee sampleDigest
           "k" "s" 0 "hello" "bob" 50 (byAuthor "alice")
           (mkNoteOpts (byAuthor "alice") (Some "bob") None));
    try reflexivity.
  discriminate.
Defined.

Lemma given_tags_replace_factory_tags_witness :
  tags (dvmResult sampleDigest "k" "s" 0 50 "result" "bob"
          (mkEventOpts None None (Some [["e"; "request-id"]])
                       (Some "alice") None)) =
  [["e"; "request-id"]].
Proof.
  apply (given_tags_replace_factory_tags sampleDigest
           "k" "s" "u" 0 [["e"; "request-id"]] "result" "bob"
           "title" 50 500
           (mkEventOpts None None (Some [["e"; "request-id"]])
                        (Some "alice") None)
           (mkNoteOpts (mkEventOpts None None (Some [["e"; "request-id"]])
                                    None None) None None)
           (mkTaskOpts (mkEventOpts None None (Some [["e"; "request-id"]])
                                    None None) None None None None));
    reflexivity.
Defined.

(** X21: two marketplace tasks built with the same task id by the same
    author, without [kind] and [tags] among the options, occupy one
    replaceable slot whatever their title, budget, status and signature:
    injected into a fresh relay one after the other, the second not older
    than the first, only the second is stored. *)
Theorem updated_task_replaces_task
        (digest : string -> Z -> Z -> list (list string) -> string -> string)
        (rp1 rs1 ru1 rp2 rs2 ru2 : string) (now1 now2 : Z)
        (title1 title2 author tid : string) (budget1 budget2 : Z)
        (o1 o2 : TaskOpts) :
  let v1 := marketplaceTask digest rp1 rs1 ru1 now1 title1 budget1 o1 in
  let v2 := marketplaceTask digest rp2 rs2 ru2 now2 title2 budget2 o2 in
  optKind (taskEvent o1) = None -> optTags (taskEvent o1) = None ->
  optKind (taskEvent o2) = None -> optTags (taskEvent o2) = None ->
  optPubkey (taskEvent o1) = Some author ->
  optPubkey (taskEvent o2) = Some author ->
  taskId o1 = Some tid -> taskId o2 = Some tid -> tid <> "" ->
  created_at v1 <= created_at v2 ->
  replaceableKey v1 = replaceableKey v2 /\
  getEvents (injected (injected createMockRelay v1) v2) None = [v2].
Proof.
  intros v1 v2 K1 T1 K2 T2 P1 P2 I1 I2 N L.
  pose proof (marketplaceTask_key digest rp1 rs1 ru1 now1 title1 budget1 o1
                author tid K1 T1 P1 I1 N) as R1.
  pose proof (marketplaceTask_key digest rp2 rs2 ru2 now2 title2 budget2 o2
                author tid K2 T2 P2 I2 N) as R2.
  fold v1 in R1. fold v2 in R2. split; [congruence|].
  set (key := "30950:" ++ author ++ ":" ++ tid) in *.
  unfold getEvents, injected. rewrite !inject_events.
  cbn [events createMockRelay].
  rewrite (storeEvent_replaceable v1 key [] (NoDup_nil _) R1). cbn [filter].
  cbn [EvMap.has JsMap.has existsb app fst].
  rewrite (storeEvent_replaceable v2 key [(id v1, v1)]);
    [|repeat constructor; intros []|exact R2].
  cbn [filter snd]. unfold superseded. rewrite R1, Js_eqb_opt_refl.
  rewrite (proj2 (Z.leb_le _ _) L). reflexivity.
Qed.

Lemma updated_task_replaces_task_witness :
  getEvents
    (injected
       (injected createMockRelay
          (marketplaceTask sampleDigest "k" "s" "u" 0 "Translate" 500
                           taskOptsOpen))
       (marketplaceTask sampleDigest "k" "s" "u" 0 "Translate" 500
                        taskOptsClaimed)) None =
  [marketplaceTask sampleDigest "k" "s" "u" 0 "Translate" 500 taskOptsClaimed].
Proof.
  apply (updated_task_replaces_task sampleDigest "k" "s" "u" "k" "s" "u" 0 0
           "Translate" "Translate" "alice" "task-1" 500 500
           taskOptsOpen taskOptsClaimed);
    try reflexivity; try discriminate.
Defined.

(** X22: the id of a created event depends on pubkey, timestamp, kind,
    tags and content only, so an event of a regular kind created twice
    from the same options, author and timestamp given, is stored once:
    the second injection changes nothing and returns [false], whatever
    the two signatures. *)
Theorem recreated_event_is_deduplicated
        (digest : string -> Z -> Z -> list (list string) -> string -> string)
        (rp1 rs1 rp2 rs2 : string) (now1 now2 : Z)
        (throws : Conn -> bool) (r : Relay) (opts : EventOpts) p t :
  optPubkey opts = Some p -> optCreatedAt opts = Some t ->
  replaceableKey (createEvent digest rp1 rs1 now1 opts) = None ->
  let first := createEvent digest rp1 rs1 now1 opts in
  let second := createEvent digest rp2 rs2 now2 opts in
  id second = id first /\
  inject throws (fst (inject throws r first)) second =
  (fst (inject throws r first), ([], Returned false)).
Proof.
  intros P T R first second.
  assert (I : id second = id first).
  { subst first second. unfold createEvent. cbn [id]. now rewrite P, T. }
  split; trivial.
  assert (R2 : replaceableKey second = None).
  { subst first second. unfold createEvent, replaceableKey in *.
    cbn [kind tags pubkey] in *. rewrite P in *. exact R. }
  unfold inject at 1.
  rewrite (storeEvent_regular_duplicate second _ R2).
  - now destruct (fst (inject throws r first)).
  - rewrite I, inject_events.
    destruct (storeEvent_shape first (events r)) as (m1 & _ & [[H E]|[H E]]);
      rewrite E; cbn [fst]; trivial.
    unfold EvMap.has, JsMap.has. rewrite existsb_app. cbn [existsb fst].
    now rewrite Js_eqb_opt_refl, orb_true_r.
Qed.

Lemma recreated_event_is_deduplicated_witness :
  inject allOpen
         (fst (inject allOpen createMockRelay
                      (createEvent sampleDigest "k" "sig-1" 0 helloOpts)))
         (createEvent sampleDigest "k" "sig-2" 0 helloOpts) =
  (fst (inject allOpen createMockRelay
               (createEvent sampleDigest "k" "sig-1" 0 helloOpts)),
   ([], Returned false)).
Proof.
  apply (recreated_event_is_deduplicated sampleDigest "k" "sig-1" "k" "sig-2"
           0 0 allOpen createMockRelay helloOpts "alice" 1000); reflexivity.
Defined.
